(** * quran-gg-api: timeline, text layout and overlay composition

    A shallow embedding of [main.js].  JavaScript numbers that carry
    measured quantities (audio durations, playback times, rendered text
    widths) are IEEE-754 binary64 values and are modelled by Rocq's
    primitive floats, whose operations are the same binary64 operations.
    Pixel heights are products and sums of small integers, on which
    binary64 arithmetic is exact; they are modelled in [Z]. *)

From Stdlib Require Import Floats ZArith String Ascii.
From stdpp Require Import base list strings pretty gmap.

Set Warnings "-inexact-float".
Local Open Scope Z_scope.

(** ** JavaScript values that the code relies on *)

Module Js.

(** [a + b] on operands that may be [undefined] (an out-of-range array
    read): [undefined + x] is [NaN]. *)
Definition add (a b : option float) : float :=
  match a, b with
  | Some x, Some y => (x + y)%float
  | _, _ => nan
  end.

(** Integer-valued arithmetic with a possibly [undefined] operand; [None]
    stands for the resulting [NaN]. *)
Definition zlift (f : Z → Z) (a : option Z) : option Z := f <$> a.

(** Truthiness of a number: [0], [-0] and [NaN] are falsy. *)
Definition truthy (x : float) : bool :=
  negb (PrimFloat.eqb x 0 || PrimFloat.is_nan x).

(** [v || 0] where [v] is a number or [undefined]. *)
Definition or_zero (v : option float) : float :=
  match v with
  | Some x => if truthy x then x else 0%float
  | None => 0%float
  end.

(** [s.split(' ')]: cut at every space; consecutive spaces give empty
    pieces and the empty string gives one empty piece. *)
Fixpoint split_space (s : string) : list string :=
  match s with
  | EmptyString => [EmptyString]
  | String c rest =>
      if Ascii.eqb c " " then EmptyString :: split_space rest
      else match split_space rest with
           | w :: ws => String c w :: ws
           | [] => [String c EmptyString]
           end
  end.

(** [s.replace(/:/g, '_')]. *)
Fixpoint replace_colons (s : string) : string :=
  match s with
  | EmptyString => EmptyString
  | String c rest =>
      String (if Ascii.eqb c ":" then "_"%char else c) (replace_colons rest)
  end.

(** [s.startsWith(p)]. *)
Fixpoint startsWith (s p : string) : bool :=
  match p, s with
  | EmptyString, _ => true
  | String a p', String b s' => Ascii.eqb a b && startsWith s' p'
  | String _ _, EmptyString => false
  end.

(** *** Paths

    The service runs on Linux (its image is [node:20-bullseye-slim]), so
    [path] is Node's [path.posix]. *)

(** The pieces of a path between slashes. *)
Fixpoint segments (path : string) : list string :=
  match path with
  | EmptyString => [EmptyString]
  | String c rest =>
      if Ascii.eqb c "/" then EmptyString :: segments rest
      else match segments rest with
           | segment :: more => String c segment :: more
           | [] => [String c EmptyString]
           end
  end.

(** One segment of [normalizeString]: empty segments and "." are dropped,
    ".." removes the segment before it, or is kept when there is none to
    remove and the path is relative; [kept] holds the segments kept so
    far, the last one first. *)
Definition normalizeStep (allowAboveRoot : bool) (kept : list string)
    (segment : string) : list string :=
  if String.eqb segment "" || String.eqb segment "." then kept
  else if String.eqb segment ".." then
    match kept with
    | top :: below =>
        if String.eqb top ".."
        then (if allowAboveRoot then ".." :: kept else kept)
        else below
    | [] => if allowAboveRoot then [".."] else []
    end
  else segment :: kept.

Definition normalizeString (path : string) (allowAboveRoot : bool) : string :=
  String.concat "/"
    (rev (fold_left (normalizeStep allowAboveRoot) (segments path) [])).

(** [s.endsWith('/')]. *)
Fixpoint endsWithSlash (s : string) : bool :=
  match s with
  | EmptyString => false
  | String c EmptyString => Ascii.eqb c "/"
  | String _ rest => endsWithSlash rest
  end.

(** [path.normalize(p)]. *)
Definition path_normalize (path : string) : string :=
  if String.eqb path "" then "."
  else
    let isAbsolute := startsWith path "/" in
    let trailingSeparator := endsWithSlash path in
    let normalized := normalizeString path (negb isAbsolute) in
    if String.eqb normalized "" then
      if isAbsolute then "/" else if trailingSeparator then "./" else "."
    else
      let normalized :=
        if trailingSeparator then normalized +:+ "/" else normalized in
      if isAbsolute then "/" +:+ normalized else normalized.

(** [path.join(dir, name)]: the non-empty arguments joined by a slash,
    then normalized. *)
Definition path_join (dir name : string) : string :=
  match String.eqb dir "", String.eqb name "" with
  | true, true => "."
  | true, false => path_normalize name
  | false, true => path_normalize dir
  | false, false => path_normalize (dir +:+ "/" +:+ name)
  end.

(** The loop of [path.resolve] over its arguments from the last one to
    the first, then over the working directory; [paths] holds them in
    that order. *)
Fixpoint resolveLoop (paths : list string) (resolvedPath : string)
    : string * bool :=
  match paths with
  | [] => (resolvedPath, false)
  | path :: earlier =>
      if String.eqb path "" then resolveLoop earlier resolvedPath
      else
        let resolvedPath := path +:+ "/" +:+ resolvedPath in
        if startsWith path "/" then (resolvedPath, true)
        else resolveLoop earlier resolvedPath
  end.

(** [path.resolve(...args)] in a process whose working directory is
    [cwd]. *)
Definition path_resolve (cwd : string) (args : list string) : string :=
  let '(resolvedPath, resolvedAbsolute) :=
    resolveLoop (rev (cwd :: args)) EmptyString in
  let resolvedPath := normalizeString resolvedPath (negb resolvedAbsolute) in
  if resolvedAbsolute then "/" +:+ resolvedPath
  else if String.eqb resolvedPath "" then "." else resolvedPath.

(** [path.basename(p)]: the last non-empty piece between slashes, or the
    empty string when there is none. *)
Definition basename (path : string) : string :=
  default EmptyString
    (last (List.filter (λ segment, negb (String.eqb segment ""))
             (segments path))).

(** [s.replace(/\\/g, '/')]. *)
Fixpoint replace_backslashes (s : string) : string :=
  match s with
  | EmptyString => EmptyString
  | String c rest =>
      String (if Ascii.eqb c "092"%char then "/"%char else c)
        (replace_backslashes rest)
  end.

End Js.

Arguments Js.path_normalize : simpl never.
Arguments Js.path_join : simpl never.
Arguments Js.path_resolve : simpl never.
Arguments Js.basename : simpl never.

(** ** Timeline (buildVideoWithOverlays, "Calculate precise start times") *)

(** The loop
    [for (const duration of audioDurations) {
       startTimes.push(currentTime); currentTime += duration; }]
    with its two mutable variables as accumulators. *)
Fixpoint timelineLoop (audioDurations : list float)
    (currentTime : float) (startTimes : list float) : list float * float :=
  match audioDurations with
  | [] => (startTimes, currentTime)
  | duration :: rest =>
      timelineLoop rest (currentTime + duration)%float (startTimes ++ [currentTime])
  end.

Definition timeline (audioDurations : list float) : list float * float :=
  timelineLoop audioDurations 0%float [].

Definition startTimes (audioDurations : list float) : list float :=
  (timeline audioDurations).1.

Definition totalDuration (audioDurations : list float) : float :=
  (timeline audioDurations).2.

(** [const endTime = startTime + audioDurations[i]] of the overlay loop. *)
Definition endTime (audioDurations : list float) (i : nat) : float :=
  Js.add (startTimes audioDurations !! i) (audioDurations !! i).

(** The running sum the timeline is specified by: the durations before
    index [i], added from left to right starting at [0]. *)
Definition sumBefore (audioDurations : list float) (i : nat) : float :=
  fold_left PrimFloat.add (take i audioDurations) 0%float.

(** ** Greedy word wrap (renderArabicTextImage, renderTranslationTextImage) *)

Section Wrap.

(** [ctx.measureText(s).width] for the font set on the context. *)
Variable measureText : string → float.
Variable maxWidth : float.

(** One iteration of [for (const word of words)], on the pair
    ([lines], [line]). *)
Definition wrapStep (st : list string * string) (word : string)
    : list string * string :=
  let '(lines, line) := st in
  let testLine := line +:+ word +:+ " " in
  if (maxWidth <? measureText testLine)%float && negb (String.eqb line "")
  then (lines ++ [line], word +:+ " ")
  else (lines, testLine).

Definition wrapLoop (words : list string) (st : list string * string)
    : list string * string :=
  fold_left wrapStep words st.

(** The loop followed by the final [lines.push(line)]. *)
Definition wrapWords (words : list string) : list string :=
  let '(lines, line) := wrapLoop words ([], EmptyString) in
  lines ++ [line].

Definition wrapText (text : string) : list string :=
  wrapWords (Js.split_space text).

End Wrap.

(** What a rasterizer leaves behind: the size of the canvas whose PNG is
    written, the lines drawn on it, and the height it returns. *)
Record Raster := {
  canvasWidth : Z;
  canvasHeight : Z;
  rasterLines : list string;
  totalHeight : Z
}.

Inductive Font := UthmanicHafs65 | ClashDisplay32.

Section Rasterizers.

(** Text metrics of the canvas library, per registered font. *)
Variable measure : Font → string → float.

(** [renderArabicTextImage] up to the creation of the final canvas. *)
Definition layoutArabicText (text : string) : Raster :=
  let width := 950 in
  let maxWidth := (950 * 0.9)%float in
  let lines := wrapText (measure UthmanicHafs65) maxWidth text in
  let lineHeight := 100 in
  let totalHeight := Z.of_nat (length lines) * lineHeight in
  let canvasHeight := totalHeight + 100 in
  {| canvasWidth := width; canvasHeight := canvasHeight;
     rasterLines := lines; totalHeight := totalHeight |}.

(** [renderTranslationTextImage] up to the creation of the final canvas. *)
Definition layoutTranslationText (text : string) : Raster :=
  let width := 950 in
  let maxWidth := (950 * 0.9)%float in
  let lines := wrapText (measure ClashDisplay32) maxWidth text in
  let lineHeight := 45 in
  let totalHeight := Z.of_nat (length lines) * lineHeight in
  let canvasHeight := totalHeight + 100 in
  {| canvasWidth := width; canvasHeight := canvasHeight;
     rasterLines := lines; totalHeight := totalHeight |}.

End Rasterizers.

(** ** The compositing graph (buildVideoWithOverlays, "filter complex") *)

(** Labels that the overlay chain threads through [prevLabel]. *)
Inductive Label :=
| with_watermark
| trans (i : nat)
| arabic (i : nat).

(** One entry of [filterComplexParts].  Each constructor is one of the
    template literals of the source, its holes kept as values:
    [TextOverlay base k y a b out] stands for
    [[base][k:v]overlay=x=(W-w)/2:y=y:enable='between(t,a,b)'[out]].
    A hole filled from an out-of-range array read is [None]
    ([undefined], or the [NaN] computed from it). *)
Inductive FilterPart :=
| ScaleBackground
| VignetteOverlay
| ScaleWatermark
| WatermarkOverlay (y : Z)
| TextOverlay (base : Label) (input : nat) (y : option Z)
    (enableFrom : option float) (enableTo : float) (out : Label).

Definition watermarkY : Z := 1920 - 300.

Section OverlayLoop.

Variable arabicImagePaths : list string.
Variable audioDurations : list float.
Variable translationTextHeights arabicTextHeights : list Z.

(** Body of [for (let i = 0; i < ayat.length; i++)]: the two parts pushed
    for verse [i] and the new [prevLabel]. *)
Definition overlayStep (i : nat) (prevLabel : Label) : list FilterPart * Label :=
  let startTime := startTimes audioDurations !! i in
  let endTime := Js.add startTime (audioDurations !! i) in
  let translationHeight := translationTextHeights !! i in
  let arabicHeight := arabicTextHeights !! i in
  let translationY :=
    Js.zlift (λ h, watermarkY - (h + 100) - 50) translationHeight in
  let translationLabel := trans i in
  let arabicY :=
    match translationY, arabicHeight with
    | Some ty, Some ah => Some (ty - (ah + 24))
    | _, _ => None
    end in
  let arabicLabel := arabic i in
  ([ TextOverlay prevLabel (i + length arabicImagePaths + 4) translationY
       startTime endTime translationLabel;
     TextOverlay translationLabel (i + 4) arabicY
       startTime endTime arabicLabel ],
   arabicLabel).

(** The loop runs once per element of [ayat]; [remaining] are the verses
    from index [i] on. *)
Fixpoint overlayLoop {V : Type} (remaining : list V) (i : nat)
    (parts : list FilterPart) (prevLabel : Label) : list FilterPart * Label :=
  match remaining with
  | [] => (parts, prevLabel)
  | _ :: rest =>
      let '(pushed, arabicLabel) := overlayStep i prevLabel in
      overlayLoop rest (S i) (parts ++ pushed) arabicLabel
  end.

(** [filterComplexParts] and [finalVideoLabel]. *)
Definition filterGraph {V : Type} (ayat : list V) : list FilterPart * Label :=
  overlayLoop ayat 0%nat
    [ScaleBackground; VignetteOverlay; ScaleWatermark; WatermarkOverlay watermarkY]
    with_watermark.

End OverlayLoop.

(** ffmpeg's expression evaluator: [between(x, min, max)] is 1 when
    [min <= x <= max] and 0 otherwise, on binary64 values. *)
Definition between (x lo hi : float) : bool :=
  (lo <=? x)%float && (x <=? hi)%float.

(** The [enable] expression of a graph entry at playback time [t]: entries
    without one are always on; an expression with an [undefined] bound
    does not evaluate. *)
Definition enabledAt (p : FilterPart) (t : float) : option bool :=
  match p with
  | TextOverlay _ _ _ (Some a) b _ => Some (between t a b)
  | TextOverlay _ _ _ None _ _ => None
  | _ => Some true
  end.

(** The half-open window [lo <= x < hi], for comparison. *)
Definition halfOpen (x lo hi : float) : bool :=
  (lo <=? x)%float && (x <? hi)%float.

(** ** Request data *)

Record AudioFile := { url : string }.
Record RecitationFile := { audio_files : list AudioFile }.
Record Background := { links : list string }.
Record Ayah := { verse_key : string; aya : string; translation : string }.

(** The invocation handed to ffmpeg by [buildVideoWithOverlays]. *)
Record FfmpegCommand := {
  cmdInputs : list string;
  cmdFilter : list FilterPart;
  cmdMap : Label;
  cmdDuration : float;
  cmdOutput : string
}.

(** ** Effects

    What the process does to the outside is kept as a history of events;
    the working directories that exist are kept as a set. *)

Inductive Event :=
| EvFetch (url : string)
| EvWriteFile (path : string)
| EvProbe (path : string)
| EvConcat (listPath outputPath : string)
| EvEncode (cmd : FfmpegCommand)
| EvUpload (key path : string)
| EvMkdir (path : string)
| EvRm (path : string).

Record World := { dirs : gset string; history : list Event }.

Inductive Result (A : Type) :=
| Ok (a : A)
| Throw (message : string).
Arguments Ok {A} a.
Arguments Throw {A} message.

(** A computation runs in a world, returns or throws, and leaves a world. *)
Definition M (A : Type) : Type := World → Result A * World.

Definition ret {A} (a : A) : M A := λ w, (Ok a, w).

Definition throw {A} (message : string) : M A := λ w, (Throw message, w).

Definition bind {A B} (m : M A) (k : A → M B) : M B :=
  λ w, match m w with
       | (Ok a, w') => k a w'
       | (Throw e, w') => (Throw e, w')
       end.

(** [try { m } catch (err) { handler(err.message) }]. *)
Definition tryCatch {A} (m : M A) (handler : string → M A) : M A :=
  λ w, match m w with
       | (Ok a, w') => (Ok a, w')
       | (Throw e, w') => handler e w'
       end.

(** [if (cond) throw new Error(message)]. *)
Definition throwIf (cond : bool) (message : string) : M unit :=
  λ w, if cond then (Throw message, w) else (Ok tt, w).

(** [if (cond) { m }] with no [else]. *)
Definition when (cond : bool) (m : M unit) : M unit :=
  if cond then m else ret tt.

Definition emit (e : Event) : M unit :=
  λ w, (Ok (), {| dirs := dirs w; history := history w ++ [e] |}).

Definition getHistory : M (list Event) := λ w, (Ok (history w), w).

#[global] Instance M_ret : MRet M := @ret.
#[global] Instance M_bind : MBind M := λ A B k m, bind m k.

(** Outcome of [fetch(url)]: the promise rejects, or resolves to a
    response with its [ok] flag. *)
Inductive FetchOutcome :=
| FetchRejected (message : string)
| FetchResponse (ok : bool).

(** Outcome of [ffmpeg.ffprobe]: an error, or metadata whose
    [format.duration] is a number or is missing.  A probe that reports a
    duration that is not a number (fluent-ffmpeg leaves a value such as
    "N/A" as a string, which [|| 0] keeps and to which the timeline then
    appends instead of adding) is not in this model: durations are
    numbers throughout. *)
Inductive ProbeOutcome :=
| ProbeError (message : string)
| ProbeMetadata (duration : option float).

(** The collaborators of the process.  Each answer may depend on
    everything that happened before it. *)
Record Env := {
  netFetch : list Event → string → FetchOutcome;
  ffprobe : list Event → string → ProbeOutcome;
  ffmpegConcat : list Event → string → string → option string;
  ffmpegEncode : list Event → FfmpegCommand → option string;
  s3Send : list Event → string → option string;
  measureFont : Font → string → float;
  cwd : string;
  shortId : string;
  dateNow : list Event → float;
  debugMode : bool;
  R2_ACCOUNT_ID : string;
  R2_BUCKET_NAME : string
}.

Definition existsSync (path : string) : M bool :=
  λ w, (Ok (bool_decide (path ∈ dirs w)), w).

Definition mkdirSync (path : string) : M unit :=
  λ w, (Ok (), {| dirs := {[path]} ∪ dirs w; history := history w ++ [EvMkdir path] |}).

(** [fs.rmSync(path, { recursive: true })]. *)
Definition rmSync (path : string) : M unit :=
  λ w, (Ok (), {| dirs := dirs w ∖ {[path]}; history := history w ++ [EvRm path] |}).

(** [fs.writeFileSync(path, ...)]; file contents are not tracked. *)
Definition writeFileSync (path : string) : M unit := emit (EvWriteFile path).

Inductive MediaType := video | audio.

Definition typeName (type : MediaType) : string :=
  match type with video => "video" | audio => "audio" end.

Record Downloaded := {
  audioPaths : list string;
  audioDurations : list float;
  videoPaths : list string
}.

(** The template literal [`${base}?token=sample_token&expires=${expires}`],
    its numeric hole kept as the binary64 value it is computed as. *)
Record PresignedUrl := { signedBase : string; signedExpires : float }.

Record UploadResult := {
  uploadUrl : string;
  uploadPresignedUrl : PresignedUrl
}.

Record VideoResult := {
  output : string;
  videoUrl : string;
  presignedUrl : PresignedUrl;
  videoId : string
}.

Definition audioPrefix : string := "https://verses.quran.com/".
Definition pixabayPrefix : string := "https://cdn.pixabay.com/".

Section Process.

Context (E : Env).

(** [await fetch(url)], giving [response.ok]. *)
Definition fetch (u : string) : M bool :=
  h ← getHistory;
  emit (EvFetch u);;
  match netFetch E h u with
  | FetchRejected message => throw message
  | FetchResponse ok => mret ok
  end.

Definition getAudioDuration (audioPath : string) : M float :=
  h ← getHistory;
  emit (EvProbe audioPath);;
  match ffprobe E h audioPath with
  | ProbeError message => throw message
  | ProbeMetadata duration => mret (Js.or_zero duration)
  end.

(** The [try { ... } catch (err) { throw ... }] statement in the body of
    the first loop of [downloadFiles], giving the probed duration. *)
Definition tryAudio (audioUrl audioPath key : string) : M float :=
  tryCatch
    (ok ← fetch audioUrl;
     throwIf (negb ok) ("Failed to fetch audio: " +:+ audioUrl);;
     writeFileSync audioPath;;
     getAudioDuration audioPath)
    (λ message,
       throw ("Audio download failed for " +:+ key +:+ ": " +:+ message)).

(** The [try { ... } catch (err) { throw ... }] statement in the body of
    the second loop of [downloadFiles]. *)
Definition tryVideo (videoUrl videoPath : string) : M unit :=
  tryCatch
    (ok ← fetch videoUrl;
     throwIf (negb ok) ("Failed to fetch video: " +:+ videoUrl);;
     writeFileSync videoPath)
    (λ message,
       throw ("Video download failed for " +:+ videoUrl +:+ ": " +:+ message)).

(** First loop of [downloadFiles]; [remaining] are the recitation files
    from index [i] on.  Reading [.url] of a missing [audio_files[0]]
    throws a TypeError, outside the [try]. *)
Fixpoint downloadAudio (remaining : list RecitationFile) (i : nat)
    (ayat : list Ayah) (tempDir : string)
    (audioPaths : list string) (audioDurations : list float)
    : M (list string * list float) :=
  match remaining with
  | [] => mret (audioPaths, audioDurations)
  | recitation_file :: rest =>
      let key :=
        match ayat !! i with
        | Some verse => verse_key verse
        | None => "unknown-" +:+ pretty i
        end in
      match audio_files recitation_file !! 0%nat with
      | None => throw "Cannot read properties of undefined (reading 'url')"
      | Some first =>
          let audioUrl := audioPrefix +:+ url first in
          let audioPath :=
            Js.path_join tempDir ("audio_" +:+ Js.replace_colons key +:+ ".mp3") in
          duration ← tryAudio audioUrl audioPath key;
          downloadAudio rest (S i) ayat tempDir
            (audioPaths ++ [audioPath]) (audioDurations ++ [duration])
      end
  end.

(** Second loop of [downloadFiles], over [background.links.entries()]. *)
Fixpoint downloadVideos (remaining : list string) (index : nat)
    (tempDir : string) (videoPaths : list string) : M (list string) :=
  match remaining with
  | [] => mret videoPaths
  | videoUrl :: rest =>
      if Js.startsWith videoUrl pixabayPrefix then
        let videoPath :=
          Js.path_join tempDir ("background_" +:+ pretty index +:+ ".mp4") in
        tryVideo videoUrl videoPath;;
        downloadVideos rest (S index) tempDir (videoPaths ++ [videoPath])
      else downloadVideos rest (S index) tempDir videoPaths
  end.

Definition downloadFiles (recitation_files : list RecitationFile)
    (background : Background) (ayat : list Ayah) (tempDir : string)
    : M Downloaded :=
  '(audioPaths, audioDurations) ← downloadAudio recitation_files 0 ayat tempDir [] [];
  videoPaths ← downloadVideos (links background) 0 tempDir [];
  if bool_decide (length videoPaths = 0%nat)
  then throw "No valid background video provided"
  else mret {| audioPaths := audioPaths; audioDurations := audioDurations;
               videoPaths := videoPaths |}.

Definition concatenateMedia (filePaths : list string) (type : MediaType)
    (tempDir : string) : M string :=
  match filePaths with
  | [] => throw ("No " +:+ typeName type +:+ " files to concatenate")
  | [only] => mret only
  | _ =>
      let concatListPath :=
        Js.path_join tempDir (typeName type +:+ "_concat.txt") in
      writeFileSync concatListPath;;
      let outputPath :=
        Js.path_join tempDir
          ("concatenated_" +:+ typeName type +:+ "." +:+
           match type with video => "mp4" | audio => "mp3" end) in
      h ← getHistory;
      emit (EvConcat concatListPath outputPath);;
      match ffmpegConcat E h concatListPath outputPath with
      | Some message => throw message
      | None => mret outputPath
      end
  end.

Definition renderArabicTextImage (text outputPath : string) : M Z :=
  let raster := layoutArabicText (measureFont E) text in
  writeFileSync outputPath;;
  mret (totalHeight raster).

Definition renderTranslationTextImage (text outputPath : string) : M Z :=
  let raster := layoutTranslationText (measureFont E) text in
  writeFileSync outputPath;;
  mret (totalHeight raster).

Fixpoint generateArabicLoop (remaining : list Ayah) (tempDir : string)
    (imagePaths : list string) (textHeights : list Z)
    : M (list string * list Z) :=
  match remaining with
  | [] => mret (imagePaths, textHeights)
  | ayah :: rest =>
      let imagePath :=
        Js.path_join tempDir
          ("arabic_" +:+ Js.replace_colons (verse_key ayah) +:+ ".png") in
      height ← renderArabicTextImage (aya ayah) imagePath;
      generateArabicLoop rest tempDir (imagePaths ++ [imagePath]) (textHeights ++ [height])
  end.

Definition generateArabicImages (ayat : list Ayah) (tempDir : string)
    : M (list string * list Z) :=
  generateArabicLoop ayat tempDir [] [].

Fixpoint generateTranslationLoop (remaining : list Ayah) (tempDir : string)
    (imagePaths : list string) (textHeights : list Z)
    : M (list string * list Z) :=
  match remaining with
  | [] => mret (imagePaths, textHeights)
  | ayah :: rest =>
      let imagePath :=
        Js.path_join tempDir
          ("translation_" +:+ Js.replace_colons (verse_key ayah) +:+ ".png") in
      height ← renderTranslationTextImage (translation ayah) imagePath;
      generateTranslationLoop rest tempDir (imagePaths ++ [imagePath]) (textHeights ++ [height])
  end.

Definition generateTranslationImages (ayat : list Ayah) (tempDir : string)
    : M (list string * list Z) :=
  generateTranslationLoop ayat tempDir [] [].

(** The command that [buildVideoWithOverlays] assembles. *)
Definition overlayCommand (videoPath audioPath : string)
    (arabicImagePaths translationImagePaths : list string)
    (ayat : list Ayah) (audioDurations : list float)
    (translationTextHeights arabicTextHeights : list Z)
    (tempDir : string) : FfmpegCommand :=
  let '(filterComplexParts, finalVideoLabel) :=
    filterGraph arabicImagePaths audioDurations
      translationTextHeights arabicTextHeights ayat in
  let bgImagePath :=
    Js.path_resolve (cwd E) [cwd E; "static"; "bg-vid-gradient.png"] in
  let watermarkPath :=
    Js.path_resolve (cwd E) [cwd E; "static"; "images"; "quran-watermark.png"] in
  {| cmdInputs := [videoPath; audioPath; watermarkPath; bgImagePath]
                  ++ arabicImagePaths ++ translationImagePaths;
     cmdFilter := filterComplexParts;
     cmdMap := finalVideoLabel;
     cmdDuration := totalDuration audioDurations;
     cmdOutput :=
       Js.replace_backslashes (Js.path_join tempDir "final_output.mp4") |}.

Definition buildVideoWithOverlays (videoPath audioPath : string)
    (arabicImagePaths translationImagePaths : list string)
    (ayat : list Ayah) (audioDurations : list float)
    (translationTextHeights arabicTextHeights : list Z)
    (tempDir : string) : M string :=
  let command :=
    overlayCommand videoPath audioPath arabicImagePaths translationImagePaths
      ayat audioDurations translationTextHeights arabicTextHeights tempDir in
  h ← getHistory;
  emit (EvEncode command);;
  match ffmpegEncode E h command with
  | Some message => throw message
  | None => mret (cmdOutput command)
  end.

Definition uploadFileToR2 (filePath key : string) : M UploadResult :=
  h ← getHistory;
  emit (EvUpload key filePath);;
  match s3Send E h key with
  | Some message => throw message
  | None =>
      let publicUrl :=
        "https://" +:+ R2_ACCOUNT_ID E +:+ ".r2.cloudflarestorage.com/"
        +:+ R2_BUCKET_NAME E +:+ "/" +:+ key in
      h' ← getHistory;
      mret {| uploadUrl := publicUrl;
              uploadPresignedUrl :=
                {| signedBase := publicUrl;
                   signedExpires := (dateNow E h' + 7200 * 1000)%float |} |}
  end.

Definition uploadVideoToR2 (videoPath videoId : string) : M UploadResult :=
  let key := "videos/" +:+ videoId +:+ "/" +:+ Js.basename videoPath in
  uploadFileToR2 videoPath key.

(** [path.resolve(process.cwd(), 'temp', request_id)]. *)
Definition requestTempDir : string :=
  Js.path_resolve (cwd E) [cwd E; "temp"; shortId E].

Definition processVideoRequest (recitation_files : list RecitationFile)
    (background : Background) (ayat : list Ayah) : M VideoResult :=
  let request_id := shortId E in
  let tempDir := requestTempDir in
  tryCatch
    (present ← existsSync tempDir;
     when (negb present) (mkdirSync tempDir);;
     d ← downloadFiles recitation_files background ayat tempDir;
     finalVideoInput ← concatenateMedia (videoPaths d) video tempDir;
     audioInput ← concatenateMedia (audioPaths d) audio tempDir;
     '(arabicImagePaths, arabicTextHeights) ← generateArabicImages ayat tempDir;
     '(translationImagePaths, translationTextHeights) ←
        generateTranslationImages ayat tempDir;
     finalOutputPath ←
        buildVideoWithOverlays finalVideoInput audioInput
          arabicImagePaths translationImagePaths ayat (audioDurations d)
          translationTextHeights arabicTextHeights tempDir;
     let videoId := request_id in
     uploadResult ← uploadVideoToR2 finalOutputPath videoId;
     when (negb (debugMode E)) (rmSync tempDir);;
     mret {| output := finalOutputPath; videoUrl := uploadUrl uploadResult;
             presignedUrl := uploadPresignedUrl uploadResult;
             videoId := videoId |})
    (λ message, throw message).

End Process.

(** ** Reference notions used to state the properties *)

(** A line made of whole words, each followed by one space. *)
Definition lineOf (group : list string) : string :=
  foldr (λ word rest, word +:+ " " +:+ rest) EmptyString group.

Definition isNil {A} (l : list A) : bool :=
  match l with [] => true | _ => false end.

(** The wrap loop read on groups of words instead of on the strings that
    spell them: [(groups, group)] stands for [(lines, line)]. *)
Definition groupStep (measureText : string → float) (maxWidth : float)
    (st : list (list string) * list string) (word : string)
    : list (list string) * list string :=
  let '(groups, group) := st in
  if (maxWidth <? measureText (lineOf (group ++ [word])))%float
     && negb (isNil group)
  then (groups ++ [group], [word])
  else (groups, group ++ [word]).

Definition groupLoop (measureText : string → float) (maxWidth : float)
    (words : list string) (st : list (list string) * list string) :=
  fold_left (groupStep measureText maxWidth) words st.

(** The strings that a state of the group loop stands for. *)
Definition spell (st : list (list string) * list string) : list string * string :=
  (lineOf <$> st.1, lineOf st.2).

(** The narrow run is ahead of the wide run: it has closed more lines, or
    as many and its open line started no later. *)
Definition ahead (narrow wide : list (list string) * list string) : Prop :=
  (length wide.1 < length narrow.1)%nat
  ∨ (length wide.1 = length narrow.1 ∧ wide.2 `suffix_of` narrow.2).

(** The base layer of verse [i]'s translation overlay in the chain. *)
Definition baseLabel (i : nat) : Label :=
  match i with
  | O => with_watermark
  | S k => arabic k
  end.

(** The four operations pushed before the overlay loop. *)
Definition fixedParts : list FilterPart :=
  [ScaleBackground; VignetteOverlay; ScaleWatermark; WatermarkOverlay watermarkY].

(** Positions of verse [i]'s two overlays in [filterComplexParts]. *)
Definition translationOverlay (graph : list FilterPart) (i : nat) : option FilterPart :=
  graph !! (4 + 2 * i)%nat.
Definition arabicOverlay (graph : list FilterPart) (i : nat) : option FilterPart :=
  graph !! (4 + 2 * i + 1)%nat.

(** Whether verse [i]'s translation overlay is shown at time [t]. *)
Definition shownAt (graph : list FilterPart) (i : nat) (t : float) : option bool :=
  translationOverlay graph i ≫= λ p, enabledAt p t.

(** Sample request data. *)
Definition sampleVerse0 : Ayah :=
  {| verse_key := "1:1"; aya := "alif ba ta"; translation := "first verse" |}.
Definition sampleVerse1 : Ayah :=
  {| verse_key := "1:2"; aya := "jim ha kha"; translation := "second verse" |}.
Definition sampleAyat : list Ayah := [sampleVerse0; sampleVerse1].

(** The graph of a two-verse request with audio durations 2 and 3. *)
Definition sampleGraph : list FilterPart :=
  (filterGraph ["a0.png"; "a1.png"] [2%float; 3%float] [45; 45] [100; 100]
     sampleAyat).1.

(** URLs fetched, in order, among the events of a history. *)
Definition fetchedUrls (events : list Event) : list string :=
  omap (λ e, match e with EvFetch u => Some u | _ => None end) events.

(** The audio URL built for a recitation file, when [audio_files[0]]
    exists. *)
Definition audioUrlOf (recitation_file : RecitationFile) : option string :=
  (λ first, audioPrefix +:+ url first) <$> (audio_files recitation_file !! 0%nat).


(** A background link the download loop fetches. *)
Definition eligible (videoUrl : string) : Prop :=
  Js.startsWith videoUrl pixabayPrefix = true.

#[global] Instance eligible_dec videoUrl : Decision (eligible videoUrl).
Proof. unfold eligible. apply _. Defined.

(** The world [w'] is [w] after the events [events], with the same
    directories. *)
Definition extends (w w' : World) (events : list Event) : Prop :=
  dirs w' = dirs w ∧ history w' = history w ++ events.

(** What the second download loop does for the link at [index] when all
    goes well: nothing for a link that is not eligible. *)
Definition videoPathOf (tempDir : string) (index : nat) : string :=
  Js.path_join tempDir ("background_" +:+ pretty index +:+ ".mp4").

Definition videoEvents (tempDir : string) (index : nat) (videoUrl : string)
    : list Event :=
  if Js.startsWith videoUrl pixabayPrefix
  then [EvFetch videoUrl; EvWriteFile (videoPathOf tempDir index)]
  else [].

Definition videoPathsFrom (tempDir : string) (index : nat) (videoUrl : string)
    : list string :=
  if Js.startsWith videoUrl pixabayPrefix then [videoPathOf tempDir index] else [].

(** A font model for examples: text of up to eight characters is 50 wide,
    longer text is 900 wide. *)
Definition stepMeasure (s : string) : float :=
  if (String.length s <=? 8)%nat then 50%float else 900%float.

(** A font model in which text can get narrower when text is put in
    front of it: every word, alone or followed by a space, is 10 wide,
    "a b " is 50 wide, "a b c " and "c d " are 70 wide, and any other text
    is 10 wide. *)
Definition oddMeasure (s : string) : float :=
  if String.eqb s "a b " then 50%float
  else if String.eqb s "a b c " || String.eqb s "c d " then 70%float
  else 10%float.

(** Collaborators that never fail, for examples. *)
Definition quietEnv : Env :=
  {| netFetch := λ _ _, FetchResponse true;
     ffprobe := λ _ _, ProbeMetadata (Some 3%float);
     ffmpegConcat := λ _ _ _, None;
     ffmpegEncode := λ _ _, None;
     s3Send := λ _ _, None;
     measureFont := λ _, stepMeasure;
     cwd := "/app";
     shortId := "1700000000000-42";
     dateNow := λ _, 1700000000000%float;
     debugMode := false;
     R2_ACCOUNT_ID := "acct";
     R2_BUCKET_NAME := "bucket" |}.

Definition emptyWorld : World := {| dirs := ∅; history := [] |}.

(** The world in which [processVideoRequest] starts its downloads: the
    request's temporary directory has been created unless it existed. *)
Definition withTempDir (E : Env) (w : World) : World :=
  if bool_decide (requestTempDir E ∈ dirs w) then w
  else {| dirs := {[requestTempDir E]} ∪ dirs w;
          history := history w ++ [EvMkdir (requestTempDir E)] |}.

(** A computation that neither creates nor removes directories. *)
Definition keepsDirs {A} (m : M A) : Prop := ∀ w, dirs (m w).2 = dirs w.

(** A request that cannot succeed: the only background link is not on the
    eligible host. *)
Definition strayBackground : Background :=
  {| links := ["https://example.com/bg.mp4"] |}.

(** A recitation file with two audio files. *)
Definition sampleRecitation : RecitationFile :=
  {| audio_files := [ {| url := "Alafasy/mp3/001001.mp3" |};
                      {| url := "Alafasy/ogg/001001.ogg" |} ] |}.

(** Background links of which only the second is eligible. *)
Definition mixedLinks : list string :=
  [ "https://example.com/a.mp4";
    "https://cdn.pixabay.com/video/1.mp4";
    "http://cdn.pixabay.com/video/2.mp4" ].

(** A background with one eligible link. *)
Definition pixabayBackground : Background :=
  {| links := ["https://cdn.pixabay.com/video/1.mp4"] |}.

(** A group of at most one word, or one that is not wider than
    [maxWidth]. *)
Definition fitsOrSingle (measureText : string → float) (maxWidth : float)
    (group : list string) : Prop :=
  (length group ≤ 1)%nat
  ∨ (maxWidth <? measureText (lineOf group))%float = false.

(** The label a graph entry reads as its base layer and the label it
    writes, for the entries from the watermark overlay on. *)
Definition partBase (p : FilterPart) : option Label :=
  match p with
  | TextOverlay base _ _ _ _ _ => Some base
  | _ => None
  end.

Definition partOut (p : FilterPart) : option Label :=
  match p with
  | WatermarkOverlay _ => Some with_watermark
  | TextOverlay _ _ _ _ _ out => Some out
  | _ => None
  end.

(** The ffmpeg input a text overlay reads its image from. *)
Definition partInput (p : FilterPart) : option nat :=
  match p with
  | TextOverlay _ input _ _ _ _ => Some input
  | _ => None
  end.

(** The vertical position of a text overlay. *)
Definition partY (p : FilterPart) : option Z :=
  match p with
  | TextOverlay _ _ y _ _ _ => y
  | _ => None
  end.



(** A URL the process may fetch: one under the recitation host, or an
    eligible background link. *)
Definition allowedUrl (u : string) : Prop :=
  Js.startsWith u audioPrefix = true ∨ eligible u.

(** Events of the preparation of a request: no encode, no upload, no
    removal. *)
Definition isPrep (e : Event) : Prop :=
  match e with
  | EvEncode _ | EvUpload _ _ | EvRm _ => False
  | _ => True
  end.

Definition prepOnly (events : list Event) : Prop :=
  Forall isPrep events ∧ Forall allowedUrl (fetchedUrls events).

(** A computation that only prepares, whatever it returns. *)
Definition prepares {A} (m : M A) : Prop :=
  ∀ w, ∃ events, history (m w).2 = history w ++ events ∧ prepOnly events.

(** The object URL that [uploadFileToR2] builds for a key. *)
Definition publicUrlOf (E : Env) (key : string) : string :=
  "https://" +:+ R2_ACCOUNT_ID E +:+ ".r2.cloudflarestorage.com/"
  +:+ R2_BUCKET_NAME E +:+ "/" +:+ key.

(** The key and the local path of the final video of a request. *)
Definition finalKey (E : Env) : string :=
  "videos/" +:+ shortId E +:+ "/final_output.mp4".

Definition finalOutput (E : Env) : string :=
  Js.replace_backslashes (Js.path_join (requestTempDir E) "final_output.mp4").

(** ** Lookup of a video and the request handlers *)

Module JsText.

(** [s.split(sep)] for a one-character separator. *)
Fixpoint split (sep : ascii) (s : string) : list string :=
  match s with
  | EmptyString => [EmptyString]
  | String c rest =>
      if Ascii.eqb c sep then EmptyString :: split sep rest
      else match split sep rest with
           | w :: ws => String c w :: ws
           | [] => [String c EmptyString]
           end
  end.

(** [s.includes(sub)]. *)
Fixpoint includes (s sub : string) : bool :=
  Js.startsWith s sub
  || match s with
     | EmptyString => false
     | String _ rest => includes rest sub
     end.

(** Truthiness of a value that is a string or [undefined]. *)
Definition truthy (v : option string) : bool :=
  match v with
  | None => false
  | Some s => negb (String.eqb s "")
  end.

End JsText.

(** What [getPresignedUrlForVideo] returns: [{ error, status }] or
    [{ videoId, presignedUrl, expiresIn, status }]. *)
Inductive LookupResult :=
| LookupFailed (error : string) (status : Z)
| LookupFound (videoId : string) (presignedUrl : PresignedUrl)
    (expiresIn : float) (status : Z).

Definition lookupStatus (r : LookupResult) : Z :=
  match r with
  | LookupFailed _ status => status
  | LookupFound _ _ _ status => status
  end.

(** [videoId] is a string or [undefined]; [expirySeconds] is a number and
    defaults to 7200 when [undefined]. *)
Definition getPresignedUrlForVideo (E : Env) (videoId : option string)
    (expirySeconds : option float) : M LookupResult :=
  let expirySeconds := default 7200%float expirySeconds in
  tryCatch
    (if negb (JsText.truthy videoId)
     then mret (LookupFailed "Video ID is required" 400)
     else
       let id := default EmptyString videoId in
       let key := "videos/" +:+ id +:+ "/final_output.mp4" in
       h ← getHistory;
       let presignedUrl :=
         {| signedBase :=
              "https://" +:+ R2_ACCOUNT_ID E +:+ ".r2.cloudflarestorage.com/"
              +:+ R2_BUCKET_NAME E +:+ "/" +:+ key;
            signedExpires := (dateNow E h + expirySeconds * 1000)%float |} in
       mret (LookupFound id presignedUrl expirySeconds 200))
    (λ message,
       mret (LookupFailed message
               (if JsText.includes message "400" then 400 else 500))).

(** The body of a POST request once [JSON.parse] and the destructuring
    have run: they threw, or gave the three fields, each absent (or
    falsy) or present. *)
Inductive Payload :=
| PayloadInvalid (message : string)
| PayloadFields (recitation_files : option (list RecitationFile))
    (background : option Background) (ayat : option (list Ayah)).

(** The outcome of [url.parse(req.url, true)]: it throws on a URL that
    Node rejects, or gives an object whose [pathname] is a string or
    [null]. *)
Inductive UrlParse :=
| UrlThrows (message : string)
| UrlParsed (pathname : option string).

(** An HTTP request as [handler] uses it: the method, what [url.parse]
    makes of the URL, and the body. *)
Record HttpRequest := {
  reqMethod : string;
  reqUrl : UrlParse;
  reqBody : Payload
}.

(** [pathname === s] for a [pathname] that is a string or [null]. *)
Definition pathnameIs (pathname : option string) (s : string) : bool :=
  match pathname with
  | Some p => String.eqb p s
  | None => false
  end.

Inductive HttpBody :=
| BodyNone
| BodyServiceInfo
| BodyLookup (result : LookupResult)
| BodyVideo (result : VideoResult)
| BodyError (error : string).

Record HttpResponse := { resStatus : Z; resBody : HttpBody }.

Definition missingFields : string :=
  "Missing required fields: recitation_files, background, or ayat".

(** The [req.on('end', ...)] callback of the POST /process route. *)
Definition handleProcess (E : Env) (body : Payload) : M HttpResponse :=
  tryCatch
    (match body with
     | PayloadInvalid message => throw message
     | PayloadFields (Some recitation_files) (Some background) (Some ayat) =>
         result ← processVideoRequest E recitation_files background ayat;
         mret {| resStatus := 200; resBody := BodyVideo result |}
     | PayloadFields _ _ _ =>
         mret {| resStatus := 400; resBody := BodyError missingFields |}
     end)
    (λ message, mret {| resStatus := 500; resBody := BodyError message |}).

(** The HTTP [handler]; every response also carries the three CORS
    headers, set before the routes are tried.  [url.parse] runs first,
    inside the [try]; [pathname.startsWith] is reached by GET requests
    only and throws on a [null] pathname. *)
Definition handler (E : Env) (req : HttpRequest) : M HttpResponse :=
  tryCatch
    (match reqUrl req with
     | UrlThrows message => throw message
     | UrlParsed pathname =>
         let otherRoutes :=
           if String.eqb (reqMethod req) "POST" && pathnameIs pathname "/process"
           then handleProcess E (reqBody req)
           else mret {| resStatus := 404;
                        resBody := BodyError "Endpoint not found" |} in
         if String.eqb (reqMethod req) "OPTIONS" then
           mret {| resStatus := 204; resBody := BodyNone |}
         else if String.eqb (reqMethod req) "GET"
                 && (pathnameIs pathname "/" || pathnameIs pathname "") then
           mret {| resStatus := 200; resBody := BodyServiceInfo |}
         else if String.eqb (reqMethod req) "GET" then
           match pathname with
           | None => throw "Cannot read properties of null (reading 'startsWith')"
           | Some pathname =>
               if Js.startsWith pathname "/videos/" then
                 let videoId := JsText.split "/" pathname !! 2%nat in
                 result ← getPresignedUrlForVideo E videoId None;
                 mret {| resStatus := lookupStatus result;
                         resBody := BodyLookup result |}
               else otherRoutes
           end
         else otherRoutes
     end)
    (λ _, mret {| resStatus := 500; resBody := BodyError "Internal Server Error" |}).

(** [event.input] of the RunPod handler. *)
Record RunpodInput := {
  inRoute : option string;
  inVideoId : option string;
  inExpirySeconds : option float;
  inRecitationFiles : option (list RecitationFile);
  inBackground : option Background;
  inAyat : option (list Ayah)
}.

Inductive RunpodResult :=
| RunLookup (result : LookupResult)
| RunVideo (result : VideoResult)
| RunError (error : string).

Definition runpodHandler (E : Env) (input : RunpodInput) : M RunpodResult :=
  if bool_decide (inRoute input = Some "video") then
    result ← getPresignedUrlForVideo E (inVideoId input) (inExpirySeconds input);
    mret (RunLookup result)
  else
    match inRecitationFiles input, inBackground input, inAyat input with
    | Some recitation_files, Some background, Some ayat =>
        tryCatch
          (result ← processVideoRequest E recitation_files background ayat;
           mret (RunVideo result))
          (λ message, mret (RunError message))
    | _, _, _ => mret (RunError missingFields)
    end.

(** ** The RunPod job server (the second source file) *)

Definition OUTPUT_DIR : string := "/outputs".

(** The body of a job request once [JSON.parse] has run: it threw, or
    gave [id] and [input], each possibly [undefined]. *)
Inductive JobPayload :=
| JobInvalid (message : string)
| Job (id : option string) (input : option RunpodInput).

Record JobRequest := {
  jobMethod : string;
  jobUrl : string;
  jobBody : JobPayload
}.

Inductive JobBody :=
| JobNone
| JobHealthy
| JobDone (id : option string) (output : RunpodResult)
| JobFailed (error : string).

Record JobResponse := { jobStatus : Z; jobResult : JobBody }.

(** A template literal on a string that may be [undefined]. *)
Definition showId (id : option string) : string := default "undefined" id.

(** [writeJobOutput]; it gives [true] unless a file operation throws. *)
Definition writeJobOutput (jobId : option string) : M bool :=
  tryCatch
    (let jobOutputDir := OUTPUT_DIR +:+ "/" +:+ showId jobId in
     present ← existsSync jobOutputDir;
     when (negb present) (mkdirSync jobOutputDir);;
     writeFileSync (jobOutputDir +:+ "/output.json");;
     mret true)
    (λ _, mret false).

(** [runpodHandler({ input })] as the server calls it: reading [.route]
    of a missing [input] throws. *)
Definition runJob (E : Env) (input : option RunpodInput) : M RunpodResult :=
  match input with
  | None => throw "Cannot read properties of undefined (reading 'route')"
  | Some input => runpodHandler E input
  end.

(** The [req.on('end', ...)] callback of the /run route: the response is
    sent before the output file is written. *)
Definition handleRun (E : Env) (body : JobPayload) : M JobResponse :=
  tryCatch
    (match body with
     | JobInvalid message => throw message
     | Job id input =>
         result ← runJob E input;
         writeJobOutput id;;
         mret {| jobStatus := 200; jobResult := JobDone id result |}
     end)
    (λ message, mret {| jobStatus := 500; jobResult := JobFailed message |}).

Definition jobServer (E : Env) (req : JobRequest) : M JobResponse :=
  tryCatch
    (if String.eqb (jobMethod req) "OPTIONS" then
       mret {| jobStatus := 204; jobResult := JobNone |}
     else if String.eqb (jobUrl req) "/health" && String.eqb (jobMethod req) "GET" then
       mret {| jobStatus := 200; jobResult := JobHealthy |}
     else if Js.startsWith (jobUrl req) "/run" && String.eqb (jobMethod req) "POST" then
       handleRun E (jobBody req)
     else
       mret {| jobStatus := 404; jobResult := JobFailed "Not Found" |})
    (λ _, mret {| jobStatus := 500; jobResult := JobFailed "Internal Server Error" |}).

(** Events that encode, upload or remove, among the events of a history. *)
Definition encoded (events : list Event) : list FfmpegCommand :=
  omap (λ e, match e with EvEncode c => Some c | _ => None end) events.

Definition uploaded (events : list Event) : list (string * string) :=
  omap (λ e, match e with EvUpload k p => Some (k, p) | _ => None end) events.

Definition removed (events : list Event) : list string :=
  omap (λ e, match e with EvRm p => Some p | _ => None end) events.









(** A string without a slash. *)
Fixpoint noSlash (s : string) : bool :=
  match s with
  | EmptyString => true
  | String c rest => negb (Ascii.eqb c "/") && noSlash rest
  end.

(** A file name: one path segment that [path.join] keeps as it is. *)
Definition fileName (name : string) : Prop :=
  noSlash name = true ∧ name ≠ "" ∧ name ≠ "." ∧ name ≠ "..".

(** What [path.join(dir, name)] puts in front of a file name: the
    normalized directory, followed by a slash unless it is empty. *)
Definition dirPrefix (dir : string) : string :=
  let isAbsolute := Js.startsWith dir "/" in
  (if isAbsolute then "/" else "")
  +:+ match rev (fold_left (Js.normalizeStep (negb isAbsolute))
                   (Js.segments dir) []) with
      | [] => ""
      | kept => String.concat "/" kept +:+ "/"
      end.

(** * Properties *)

(** ** The embedding on sample inputs *)

Example split_space_samples :
  Js.split_space "a  b" = ["a"; ""; "b"]
  ∧ Js.split_space "" = [""]
  ∧ Js.split_space " a " = [""; "a"; ""].
Proof. repeat split. Qed.

Example missing_duration_is_zero :
  Js.or_zero None = 0%float ∧ Js.or_zero (Some nan) = 0%float
  ∧ Js.or_zero (Some 2.5%float) = 2.5%float.
Proof. repeat split. Qed.

(** A two-verse request with never-failing collaborators: what is
    fetched, the graph handed to ffmpeg, and the cleanup at the end. *)
Example sample_request_run :
  let r := processVideoRequest quietEnv [sampleRecitation; sampleRecitation]
             pixabayBackground sampleAyat emptyWorld in
  (∃ result, r.1 = Ok result ∧ videoId result = "1700000000000-42")
  ∧ fetchedUrls (history r.2)
    = [ "https://verses.quran.com/Alafasy/mp3/001001.mp3";
        "https://verses.quran.com/Alafasy/mp3/001001.mp3";
        "https://cdn.pixabay.com/video/1.mp4" ]
  ∧ (∃ cmd, history r.2 !! 15%nat = Some (EvEncode cmd)
            ∧ cmdFilter cmd
              = fixedParts
                ++ [ TextOverlay with_watermark 6 (Some 1380)
                       (Some 0%float) 3%float (trans 0);
                     TextOverlay (trans 0) 4 (Some 1156)
                       (Some 0%float) 3%float (arabic 0);
                     TextOverlay (arabic 0) 7 (Some 1380)
                       (Some 3%float) 6%float (trans 1);
                     TextOverlay (trans 1) 5 (Some 1156)
                       (Some 3%float) 6%float (arabic 1) ]
            ∧ cmdMap cmd = arabic 1 ∧ cmdDuration cmd = 6%float)
  ∧ last (history r.2) = Some (EvRm "/app/temp/1700000000000-42").
Proof.
  split; [eexists; split; reflexivity|]. split; [reflexivity|].
  split; [eexists; repeat split; reflexivity|]. reflexivity.
Qed.

(** ** Order of binary64 values

    The comparison operators of primitive floats are specified by
    [SFcompare] on their decoded form; the order facts below follow by
    cases on that form. *)

Module FloatOrder.

Ltac split_compare :=
  repeat match goal with
    | |- context [Z.compare ?a ?b] => destruct (Z.compare_spec a b)
    | |- context [Pos.compare_cont Eq ?a ?b] =>
        change (Pos.compare_cont Eq a b) with (Pos.compare a b);
        destruct (Pos.compare_spec a b)
    end.

Ltac by_cases x y z :=
  unfold SFltb, SFleb, SFeqb, SFcompare;
  destruct x as [[]|[]| |[] ? ?]; destruct y as [[]|[]| |[] ? ?];
  destruct z as [[]|[]| |[] ? ?]; simpl; try discriminate; try reflexivity;
  split_compare; simpl; intros; subst;
  try discriminate; try reflexivity; try lia.

Lemma SF_lt_le_trans x y z :
  SFltb x y = true → SFleb y z = true → SFltb x z = true.
Proof. by_cases x y z. Qed.

Lemma SF_le_lt_trans x y z :
  SFleb x y = true → SFltb y z = true → SFltb x z = true.
Proof. by_cases x y z. Qed.

Lemma SF_le_antisym x y :
  SFleb x y = true → SFleb y x = true → SFeqb x y = true.
Proof. by_cases x y (S754_zero false). Qed.

Lemma SF_le_total x y :
  SFleb x x = true → SFleb y y = true →
  SFleb x y = true ∨ SFleb y x = true.
Proof.
  unfold SFleb, SFcompare.
  destruct x as [[]|[]| |[] ? ?]; destruct y as [[]|[]| |[] ? ?]; simpl;
    try discriminate; try (left; reflexivity); try (right; reflexivity);
    intros _ _; split_compare; simpl; subst;
    try (left; reflexivity); try (right; reflexivity); lia.
Qed.

Lemma SF_le_refl_l x y : SFleb x y = true → SFleb x x = true.
Proof. by_cases x y (S754_zero false). Qed.

Lemma SF_le_refl_r x y : SFleb x y = true → SFleb y y = true.
Proof. by_cases x y (S754_zero false). Qed.

Lemma SF_lt_not_le x y : SFltb x y = true → SFleb y x = false.
Proof. by_cases x y (S754_zero false). Qed.

Section Prim.
Local Open Scope float_scope.
Implicit Types a b c : float.

Lemma lt_le_trans a b c : (a <? b) = true → (b <=? c) = true → (a <? c) = true.
Proof. rewrite !FloatAxioms.ltb_spec, FloatAxioms.leb_spec. apply SF_lt_le_trans. Qed.

Lemma le_lt_trans a b c : (a <=? b) = true → (b <? c) = true → (a <? c) = true.
Proof. rewrite !FloatAxioms.ltb_spec, FloatAxioms.leb_spec. apply SF_le_lt_trans. Qed.

Lemma le_antisym a b : (a <=? b) = true → (b <=? a) = true → (a =? b) = true.
Proof. rewrite !FloatAxioms.leb_spec, FloatAxioms.eqb_spec. apply SF_le_antisym. Qed.

(** Two values that each take part in a true comparison are not NaN,
    hence comparable with each other. *)
Lemma le_total a b x y :
  (x <=? a) = true → (b <=? y) = true →
  (a <=? b) = true ∨ (b <=? a) = true.
Proof.
  rewrite !FloatAxioms.leb_spec. intros Ha Hb.
  apply SF_le_total; [eapply SF_le_refl_r | eapply SF_le_refl_l]; eassumption.
Qed.

Lemma le_refl_l a b : (a <=? b) = true → (a <=? a) = true.
Proof. rewrite !FloatAxioms.leb_spec. apply SF_le_refl_l. Qed.

Lemma lt_not_le a b : (a <? b) = true → (b <=? a) = false.
Proof. rewrite FloatAxioms.ltb_spec, FloatAxioms.leb_spec. apply SF_lt_not_le. Qed.
End Prim.

End FloatOrder.

(** ** Timeline *)

Section TimelineFacts.

Implicit Types (ds acc : list float) (cur : float).

Lemma timelineLoop_total ds cur acc :
  (timelineLoop ds cur acc).2 = fold_left PrimFloat.add ds cur.
Proof.
  revert cur acc. induction ds as [|d ds IH]; intros cur acc; simpl; [done|].
  apply IH.
Qed.

Lemma timelineLoop_length ds cur acc :
  length (timelineLoop ds cur acc).1 = (length acc + length ds)%nat.
Proof.
  revert cur acc. induction ds as [|d ds IH]; intros cur acc; simpl.
  - lia.
  - rewrite IH, length_app. simpl. lia.
Qed.

Lemma timelineLoop_keeps ds cur acc j :
  (j < length acc)%nat → (timelineLoop ds cur acc).1 !! j = acc !! j.
Proof.
  revert cur acc. induction ds as [|d ds IH]; intros cur acc Hj; simpl; [done|].
  rewrite IH by (rewrite length_app; simpl; lia).
  by apply lookup_app_l.
Qed.

Lemma timelineLoop_lookup ds cur acc i :
  (i < length ds)%nat →
  (timelineLoop ds cur acc).1 !! (length acc + i)%nat
  = Some (fold_left PrimFloat.add (take i ds) cur).
Proof.
  revert cur acc i. induction ds as [|d ds IH]; intros cur acc i Hi; simpl in *.
  - lia.
  - destruct i as [|i]; simpl.
    + rewrite timelineLoop_keeps by (rewrite length_app; simpl; lia).
      rewrite Nat.add_0_r. apply list_lookup_middle. done.
    + specialize (IH (cur + d)%float (acc ++ [cur]) i ltac:(lia)).
      rewrite length_app in IH. simpl in IH.
      replace (length acc + S i)%nat with (length acc + 1 + i)%nat by lia.
      exact IH.
Qed.

Lemma startTimes_length ds : length (startTimes ds) = length ds.
Proof. unfold startTimes, timeline. by rewrite timelineLoop_length. Qed.

Lemma startTimes_lookup ds i :
  (i < length ds)%nat → startTimes ds !! i = Some (sumBefore ds i).
Proof.
  intros Hi. unfold startTimes, timeline, sumBefore.
  by rewrite <- (timelineLoop_lookup ds 0%float [] i Hi).
Qed.

Lemma sumBefore_S ds i d :
  ds !! i = Some d → sumBefore ds (S i) = (sumBefore ds i + d)%float.
Proof.
  intros Hd. unfold sumBefore.
  rewrite (take_S_r _ _ _ Hd), fold_left_app. done.
Qed.

Lemma endTime_lookup ds i d :
  ds !! i = Some d → endTime ds i = (sumBefore ds i + d)%float.
Proof.
  intros Hd. unfold endTime.
  rewrite startTimes_lookup by (eapply lookup_lt_Some; eauto).
  by rewrite Hd.
Qed.

Lemma totalDuration_sum ds : totalDuration ds = sumBefore ds (length ds).
Proof.
  unfold totalDuration, timeline, sumBefore.
  by rewrite timelineLoop_total, firstn_all.
Qed.

End TimelineFacts.

(** C1.  For every non-empty list of audio durations the timeline has one
    start per duration; [start[i]] is the sum of the durations before [i]
    and [end[i] = start[i] + duration[i]]; consecutive entries are
    contiguous, [start[i+1] = end[i]]; the total duration is the end of
    the last entry; and for durations 3, 4, 5 the starts are 0, 3, 7, the
    ends 3, 7, 12 and the total 12. *)
Theorem timeline_running_sum_contiguous (ds : list float) :
  ds ≠ [] →
  length (startTimes ds) = length ds
  ∧ (∀ i d, ds !! i = Some d →
       startTimes ds !! i = Some (sumBefore ds i)
       ∧ endTime ds i = (sumBefore ds i + d)%float)
  ∧ (∀ i, (S i < length ds)%nat → startTimes ds !! S i = Some (endTime ds i))
  ∧ totalDuration ds = endTime ds (length ds - 1)
  ∧ (startTimes [3; 4; 5] = [0; 3; 7]
     ∧ endTime [3; 4; 5] <$> [0; 1; 2]%nat = [3; 7; 12]
     ∧ totalDuration [3; 4; 5] = 12)%float.
Proof.
  intros Hne. split; [apply startTimes_length|]. split; [|split; [|split]].
  - intros i d Hd. split.
    + apply startTimes_lookup. eapply lookup_lt_Some; eauto.
    + by apply endTime_lookup.
  - intros i Hi.
    destruct (lookup_lt_is_Some_2 ds i ltac:(lia)) as [d Hd].
    rewrite startTimes_lookup by lia.
    by rewrite (endTime_lookup _ _ _ Hd), (sumBefore_S _ _ _ Hd).
  - destruct ds as [|d0 ds']; [done|].
    set (ds := d0 :: ds') in *.
    destruct (lookup_lt_is_Some_2 ds (length ds - 1)) as [d Hd];
      [simpl; lia|].
    rewrite (endTime_lookup _ _ _ Hd), <- (sumBefore_S _ _ _ Hd), totalDuration_sum.
    f_equal. simpl. lia.
  - repeat split; reflexivity.
Qed.

Lemma timeline_running_sum_contiguous_witness :
  ([3; 4; 5]%float : list float) ≠ []
  ∧ startTimes [3; 4; 5]%float !! 2%nat = Some (endTime [3; 4; 5]%float 1).
Proof.
  split; [discriminate|].
  apply (timeline_running_sum_contiguous [3; 4; 5]%float); [discriminate|].
  simpl. lia.
Defined.

(** ** Word wrap *)

Module StringFacts.

Lemma app_cons (x : ascii) (a b : string) :
  String x a +:+ b = String x (a +:+ b).
Proof. reflexivity. Qed.

Lemma app_nil_l (a : string) : "" +:+ a = a.
Proof. reflexivity. Qed.

Lemma app_assoc (a b c : string) : (a +:+ b) +:+ c = a +:+ b +:+ c.
Proof.
  induction a as [|x a IH]; [done|]. by rewrite !app_cons, IH.
Qed.

Lemma app_nil_r (a : string) : a +:+ "" = a.
Proof. induction a as [|x a IH]; [done|]. by rewrite app_cons, IH. Qed.

Lemma length_app (a b : string) :
  String.length (a +:+ b) = (String.length a + String.length b)%nat.
Proof.
  induction a as [|x a IH]; [done|]. rewrite app_cons. simpl. by rewrite IH.
Qed.

End StringFacts.

Section WrapFacts.

Variable measureText : string → float.

Lemma lineOf_app (g h : list string) : lineOf (g ++ h) = lineOf g +:+ lineOf h.
Proof.
  induction g as [|w g IH]; simpl; [done|].
  by rewrite IH, !StringFacts.app_assoc.
Qed.

Lemma lineOf_snoc (g : list string) (w : string) :
  lineOf (g ++ [w]) = lineOf g +:+ w +:+ " ".
Proof. rewrite lineOf_app. simpl. by rewrite StringFacts.app_nil_r. Qed.

Lemma lineOf_empty (g : list string) :
  String.eqb (lineOf g) "" = isNil g.
Proof.
  destruct g as [|w g]; simpl; [done|].
  apply String.eqb_neq. destruct w; discriminate.
Qed.

Lemma wrapStep_spell maxWidth st w :
  wrapStep measureText maxWidth (spell st) w
  = spell (groupStep measureText maxWidth st w).
Proof.
  destruct st as [gs g]. unfold spell, wrapStep, groupStep. simpl.
  rewrite lineOf_empty, <- lineOf_snoc.
  destruct (_ && _); simpl; [|done].
  by rewrite fmap_app, StringFacts.app_nil_r.
Qed.

Lemma wrapLoop_spell maxWidth words st :
  wrapLoop measureText maxWidth words (spell st)
  = spell (groupLoop measureText maxWidth words st).
Proof.
  unfold wrapLoop, groupLoop. revert st.
  induction words as [|w words IH]; intros st; cbn [fold_left]; [done|].
  by rewrite wrapStep_spell, IH.
Qed.

(** The groups partition what was read, and only the open group can be
    empty. *)
Lemma groupStep_partition maxWidth gs g w :
  let st := groupStep measureText maxWidth (gs, g) w in
  mjoin st.1 ++ st.2 = mjoin gs ++ g ++ [w]
  ∧ (Forall (λ h, h ≠ []) gs → Forall (λ h, h ≠ []) st.1)
  ∧ st.2 ≠ [].
Proof.
  unfold groupStep. destruct (_ && _) eqn:Hbreak; simpl.
  - split; [|split]; [| |done].
    + rewrite join_app. simpl. by rewrite app_nil_r, <- app_assoc.
    + intros Hgs. apply Forall_app. split; [done|].
      apply Forall_singleton. destruct g; [|done].
      by rewrite andb_false_r in Hbreak.
  - split; [done|]. split; [done|]. by destruct g.
Qed.

Lemma groupLoop_partition maxWidth words gs g :
  let st := groupLoop measureText maxWidth words (gs, g) in
  mjoin st.1 ++ st.2 = mjoin gs ++ g ++ words
  ∧ (Forall (λ h, h ≠ []) gs → Forall (λ h, h ≠ []) st.1)
  ∧ (g ≠ [] ∨ words ≠ [] → st.2 ≠ []).
Proof.
  unfold groupLoop. revert gs g.
  induction words as [|w words IH]; intros gs g; cbn [fold_left].
  - simpl. rewrite app_nil_r. repeat split; [done|]. by intros [?|?].
  - pose proof (groupStep_partition maxWidth gs g w) as (Hcat & Hne & Hopen).
    destruct (groupStep measureText maxWidth (gs, g) w) as [gs1 g1].
    simpl in Hcat, Hne, Hopen.
    destruct (IH gs1 g1) as (Hcat' & Hne' & Hopen').
    split; [|split].
    + rewrite Hcat', app_assoc, Hcat, <- !app_assoc. done.
    + auto.
    + intros _. apply Hopen'. by left.
Qed.

Lemma wrapWords_groups maxWidth words :
  wrapWords measureText maxWidth words
  = lineOf <$> (let st := groupLoop measureText maxWidth words ([], []) in
                st.1 ++ [st.2]).
Proof.
  unfold wrapWords.
  change (@nil string, EmptyString) with (spell ([], [])).
  rewrite wrapLoop_spell.
  destruct (groupLoop _ _ _ _) as [gs g]. simpl.
  by rewrite fmap_app.
Qed.

Lemma split_space_nonempty text : Js.split_space text ≠ [].
Proof.
  induction text as [|c text IH]; simpl; [done|].
  destruct (Ascii.eqb c " "); [done|]. by destruct (Js.split_space text).
Qed.

Section Monotone.

(** Putting text in front of a string never makes it narrower. *)
Hypothesis measure_grows :
  ∀ a b, (measureText b <=? measureText (a +:+ b))%float = true.

Variables narrowWidth wideWidth : float.
Hypothesis narrow_le_wide : (narrowWidth <=? wideWidth)%float = true.

Lemma break_transfers g1 g2 w :
  g2 `suffix_of` g1 →
  (wideWidth <? measureText (lineOf (g2 ++ [w])))%float && negb (isNil g2) = true →
  (narrowWidth <? measureText (lineOf (g1 ++ [w])))%float && negb (isNil g1) = true.
Proof.
  intros [k ->] [Hwide Hne]%andb_true_iff.
  apply andb_true_iff. split.
  - rewrite <- app_assoc, lineOf_app.
    eapply FloatOrder.lt_le_trans; [|apply measure_grows].
    eapply FloatOrder.le_lt_trans; eauto.
  - destruct g2; [done|]. by destruct k.
Qed.

Lemma groupStep_ahead st1 st2 w :
  ahead st1 st2 →
  ahead (groupStep measureText narrowWidth st1 w)
        (groupStep measureText wideWidth st2 w).
Proof.
  destruct st1 as [gs1 g1], st2 as [gs2 g2]. unfold ahead. simpl.
  intros [Hlt | [Heq Hsuf]]; unfold groupStep.
  - destruct (_ && negb (isNil g2)); destruct (_ && negb (isNil g1));
      simpl; rewrite ?length_app; simpl; try (left; lia).
    destruct (decide (length gs2 + 1 < length gs1)%nat); [left; lia|].
    right. split; [lia|]. apply suffix_app_r. done.
  - destruct (_ && negb (isNil g2)) eqn:Hwide.
    + rewrite (break_transfers g1 g2 w Hsuf Hwide). simpl.
      right. rewrite !length_app. simpl. split; [lia|done].
    + destruct (_ && negb (isNil g1)); simpl; rewrite ?length_app; simpl.
      * left. lia.
      * right. split; [done|]. by apply suffix_snoc.
Qed.

Lemma groupLoop_ahead words st1 st2 :
  ahead st1 st2 →
  ahead (groupLoop measureText narrowWidth words st1)
        (groupLoop measureText wideWidth words st2).
Proof.
  unfold groupLoop. revert st1 st2.
  induction words as [|w words IH]; intros st1 st2 H; cbn [fold_left]; [done|].
  by apply IH, groupStep_ahead.
Qed.

Lemma wrapWords_monotone words :
  (length (wrapWords measureText wideWidth words)
   ≤ length (wrapWords measureText narrowWidth words))%nat.
Proof.
  rewrite !wrapWords_groups, !length_fmap.
  assert (ahead ([], []) ([], [])) as H0 by (right; done).
  pose proof (groupLoop_ahead words _ _ H0) as H.
  destruct (groupLoop measureText narrowWidth words _) as [gs1 g1].
  destruct (groupLoop measureText wideWidth words _) as [gs2 g2].
  simpl. rewrite !length_app. simpl.
  destruct H as [H | [H _]]; simpl in H; lia.
Qed.

End Monotone.

End WrapFacts.

Lemma stepMeasure_grows (a b : string) :
  (stepMeasure b <=? stepMeasure (a +:+ b))%float = true.
Proof.
  unfold stepMeasure. rewrite StringFacts.length_app.
  destruct (Nat.leb_spec (String.length b) 8);
    destruct (Nat.leb_spec (String.length a + String.length b) 8);
    try reflexivity; lia.
Qed.

(** C6, as the code has it.  The greedy wrap never splits a word:
    whatever the font metrics and the wrap width (so also when a word is
    wider than the wrap width), the lines are the words of
    [text.split(' ')] cut into consecutive non-empty groups, each line
    spelling the words of its group in full, every word followed by one
    space; both rasterizers draw exactly these lines.  The number of
    lines does not decrease as the wrap width decreases provided the font
    metrics never report a narrower width when text is put in front of a
    string; under that condition this holds for any words, in particular
    for words that are each narrower than the wrap width.  The condition
    is on [measureText], which the code takes from the canvas library and
    does not constrain. *)
Theorem wrap_keeps_words_whole_and_is_monotone :
  (∀ measureText maxWidth text,
     ∃ groups : list (list string),
       mjoin groups = Js.split_space text
       ∧ Forall (λ group, group ≠ []) groups
       ∧ wrapText measureText maxWidth text = lineOf <$> groups)
  ∧ (∀ measure text,
       rasterLines (layoutArabicText measure text)
       = wrapText (measure UthmanicHafs65) 855%float text
       ∧ rasterLines (layoutTranslationText measure text)
         = wrapText (measure ClashDisplay32) 855%float text)
  ∧ (∀ measureText narrowWidth wideWidth text,
       (∀ a b, (measureText b <=? measureText (a +:+ b))%float = true) →
       (narrowWidth <=? wideWidth)%float = true →
       (length (wrapText measureText wideWidth text)
        ≤ length (wrapText measureText narrowWidth text))%nat).
Proof.
  split; [|split].
  - intros measureText maxWidth text. unfold wrapText.
    rewrite wrapWords_groups.
    pose proof (groupLoop_partition measureText maxWidth
                  (Js.split_space text) [] []) as (Hcat & Hne & Hopen).
    destruct (groupLoop _ _ _ _) as [gs g]. simpl in *.
    exists (gs ++ [g]). split; [|split; [|done]].
    + rewrite join_app. simpl. by rewrite app_nil_r.
    + apply Forall_app. split; [by apply Hne|].
      apply Forall_singleton, Hopen. right. apply split_space_nonempty.
  - intros measure text. split; reflexivity.
  - intros measureText narrowWidth wideWidth text Hgrows Hle.
    by apply wrapWords_monotone.
Qed.

Lemma wrap_keeps_words_whole_and_is_monotone_witness :
  (100 <=? 1000)%float = true
  ∧ wrapText stepMeasure 100%float "aa bb cc dd ee" = ["aa bb "; "cc dd "; "ee "]
  ∧ wrapText stepMeasure 1000%float "aa bb cc dd ee" = ["aa bb cc dd ee "]
  ∧ (length (wrapText stepMeasure 1000%float "aa bb cc dd ee")
     ≤ length (wrapText stepMeasure 100%float "aa bb cc dd ee"))%nat.
Proof.
  split; [reflexivity|]. split; [reflexivity|]. split; [reflexivity|].
  apply (wrap_keeps_words_whole_and_is_monotone).
  - exact stepMeasure_grows.
  - reflexivity.
Defined.

(** Without the condition on the metrics the line count is not monotone,
    also when every word is narrower than both wrap widths: with
    [oddMeasure] every word of "a b c d" is 10 wide, yet the text is
    wrapped into two lines at width 40 and into three at width 60. *)
Lemma line_count_not_monotone_for_arbitrary_metrics :
  Forall (λ word, (oddMeasure word <? 40)%float = true
                  ∧ (oddMeasure (word +:+ " ") <? 40)%float = true)
    (Js.split_space "a b c d")
  ∧ (40 <=? 60)%float = true
  ∧ wrapText oddMeasure 40%float "a b c d" = ["a "; "b c d "]
  ∧ wrapText oddMeasure 60%float "a b c d" = ["a b "; "c "; "d "]
  ∧ ¬ (length (wrapText oddMeasure 60%float "a b c d")
       ≤ length (wrapText oddMeasure 40%float "a b c d"))%nat.
Proof.
  split; [by repeat constructor|]. split; [reflexivity|].
  split; [reflexivity|]. split; [reflexivity|].
  change (¬ (3 ≤ 2)%nat). lia.
Qed.

Example wide_word_kept_whole :
  wrapText stepMeasure 100%float "abcdefghijkl xy" = ["abcdefghijkl "; "xy "].
Proof. reflexivity. Qed.

(** ** Rasterized heights *)

(** C7, as the code has it.  For every text and font metrics, when the
    wrap produces N lines the primary-text rasterizer reports N * 100 and
    the translation rasterizer reports N * 45 (N times their line
    heights), and in both the canvas is 100 pixels higher than the
    reported height: a fixed margin, which is one line height for the
    primary text only. *)
Theorem raster_heights_fixed_margin (E : Env) (text outputPath : string) (w : World) :
  let a := layoutArabicText (measureFont E) text in
  let t := layoutTranslationText (measureFont E) text in
  totalHeight a = Z.of_nat (length (rasterLines a)) * 100
  ∧ canvasHeight a = totalHeight a + 100
  ∧ totalHeight t = Z.of_nat (length (rasterLines t)) * 45
  ∧ canvasHeight t = totalHeight t + 100
  ∧ (renderArabicTextImage E text outputPath w).1 = Ok (totalHeight a)
  ∧ (renderTranslationTextImage E text outputPath w).1 = Ok (totalHeight t).
Proof. repeat split. Qed.

(** The translation canvas is not one translation line height (45) higher
    than its content: for the one-line text "a" the content is 45 high
    and the canvas 145. *)
Lemma translation_margin_not_line_height :
  let t := layoutTranslationText (λ _, stepMeasure) "a" in
  rasterLines t = ["a "] ∧ totalHeight t = 1 * 45 ∧ canvasHeight t = 145
  ∧ canvasHeight t ≠ totalHeight t + 45.
Proof. repeat split; try reflexivity. discriminate. Qed.

(** ** Compositing graph *)

Section GraphFacts.

Variable arabicImagePaths : list string.
Variable durations : list float.
Variable translationTextHeights arabicTextHeights : list Z.

Local Abbreviation step := (overlayStep arabicImagePaths durations
                    translationTextHeights arabicTextHeights).
Local Abbreviation loop := (overlayLoop arabicImagePaths durations
                    translationTextHeights arabicTextHeights).
Local Abbreviation graph := (filterGraph arabicImagePaths durations
                     translationTextHeights arabicTextHeights).

Lemma overlayStep_shape i prev :
  ∃ a b, step i prev = ([a; b], arabic i).
Proof. by eexists _, _. Qed.

Ltac step_shape i prev :=
  let a := fresh "a" in
  let b := fresh "b" in
  let Hs := fresh "Hs" in
  destruct (overlayStep_shape i prev) as (a & b & Hs);
  cbn [overlayLoop]; rewrite ?Hs.

Lemma overlayLoop_length {V} (remaining : list V) i parts prev :
  length (loop remaining i parts prev).1
  = (length parts + 2 * length remaining)%nat.
Proof.
  revert i parts prev.
  induction remaining as [|v rest IH]; intros i parts prev; [simpl; lia|].
  step_shape i prev. rewrite IH, length_app. simpl. lia.
Qed.

Lemma overlayLoop_keeps {V} (remaining : list V) i parts prev j :
  (j < length parts)%nat → (loop remaining i parts prev).1 !! j = parts !! j.
Proof.
  revert i parts prev.
  induction remaining as [|v rest IH]; intros i parts prev Hj; [done|].
  step_shape i prev.
  rewrite IH by (rewrite length_app; lia).
  by apply lookup_app_l.
Qed.

Lemma overlayLoop_label {V} (remaining : list V) i parts prev :
  (loop remaining i parts prev).2
  = match remaining with
    | [] => prev
    | _ => arabic (i + length remaining - 1)
    end.
Proof.
  revert i parts prev.
  induction remaining as [|v rest IH]; intros i parts prev; [done|].
  step_shape i prev.
  rewrite IH. destruct rest; simpl; f_equal; lia.
Qed.

(** The two parts pushed for the [j]-th remaining verse sit right after
    those of the verses before it. *)
Lemma overlayLoop_lookup {V} (remaining : list V) i parts prev j :
  (j < length remaining)%nat →
  let pushed :=
    (step (i + j) (match j with O => prev | S k => arabic (i + k) end)).1 in
  (loop remaining i parts prev).1 !! (length parts + 2 * j)%nat = pushed !! 0%nat
  ∧ (loop remaining i parts prev).1 !! (length parts + 2 * j + 1)%nat
    = pushed !! 1%nat.
Proof.
  revert i parts prev j.
  induction remaining as [|v rest IH]; intros i parts prev j Hj; simpl in Hj;
    [lia|].
  destruct j as [|j]; intros pushed; subst pushed.
  - rewrite Nat.add_0_r. step_shape i prev.
    rewrite !overlayLoop_keeps by (rewrite length_app; simpl; lia).
    cbn [fst]. rewrite Nat.add_0_r, Hs. split.
    + by rewrite lookup_app_r, Nat.sub_diag by lia.
    + rewrite lookup_app_r by lia.
      by replace (length parts + 1 - length parts)%nat with 1%nat by lia.
  - step_shape i prev.
    specialize (IH (S i) (parts ++ [a; b]) (arabic i) j ltac:(lia)).
    cbv zeta in IH. rewrite length_app in IH. cbn [length] in IH.
    replace (length parts + 2 * S j)%nat
      with (length parts + 2 + 2 * j)%nat by lia.
    replace (i + S j)%nat with (S i + j)%nat by lia.
    destruct IH as [IH0 IH1]. rewrite IH0, IH1.
    destruct j as [|j].
    + by rewrite (Nat.add_0_r i).
    + by replace (i + S j)%nat with (S i + j)%nat by lia.
Qed.

Lemma graph_fixed {V} (ayat : list V) : take 4 (graph ayat).1 = fixedParts.
Proof.
  apply list_eq. intros j. unfold filterGraph.
  destruct (decide (j < 4)%nat) as [Hj|Hj].
  - rewrite lookup_take_lt by done.
    by rewrite overlayLoop_keeps by (simpl; lia).
  - rewrite lookup_take_ge by lia.
    symmetry. apply lookup_ge_None_2. simpl. lia.
Qed.

Lemma graph_length {V} (ayat : list V) :
  length (graph ayat).1 = (4 + 2 * length ayat)%nat.
Proof. unfold filterGraph. by rewrite overlayLoop_length. Qed.

Lemma graph_label {V} (ayat : list V) :
  (graph ayat).2 = baseLabel (length ayat).
Proof.
  unfold filterGraph. rewrite overlayLoop_label.
  destruct ayat; simpl; [done|]. f_equal. lia.
Qed.

Lemma graph_verse {V} (ayat : list V) i :
  (i < length ayat)%nat →
  translationOverlay (graph ayat).1 i = (step i (baseLabel i)).1 !! 0%nat
  ∧ arabicOverlay (graph ayat).1 i = (step i (baseLabel i)).1 !! 1%nat.
Proof.
  intros Hi. unfold translationOverlay, arabicOverlay, filterGraph.
  pose proof (overlayLoop_lookup ayat 0 fixedParts with_watermark i Hi) as H.
  simpl in H. by destruct i.
Qed.

End GraphFacts.

(** ** Visibility windows *)

Section WindowFacts.

Local Open Scope float_scope.

Lemma between_iff t lo hi :
  between t lo hi = true ↔ (lo <=? t) = true ∧ (t <=? hi) = true.
Proof. unfold between. apply andb_true_iff. Qed.

Lemma verse_overlays paths ds tH aH {V} (ayat : list V) i d :
  (i < length ayat)%nat → ds !! i = Some d →
  let g := (filterGraph paths ds tH aH ayat).1 in
  ∃ ty ay,
    translationOverlay g i
    = Some (TextOverlay (baseLabel i) (i + length paths + 4) ty
              (Some (sumBefore ds i)) (endTime ds i) (trans i))
    ∧ arabicOverlay g i
      = Some (TextOverlay (trans i) (i + 4) ay
                (Some (sumBefore ds i)) (endTime ds i) (arabic i)).
Proof.
  intros Hi Hd g. subst g.
  destruct (graph_verse paths ds tH aH ayat i Hi) as [-> ->].
  unfold overlayStep, endTime.
  rewrite startTimes_lookup by (eapply lookup_lt_Some; eauto).
  by eexists _, _.
Qed.

Lemma shownAt_between paths ds tH aH {V} (ayat : list V) i d t :
  (i < length ayat)%nat → ds !! i = Some d →
  shownAt (filterGraph paths ds tH aH ayat).1 i t
  = Some (between t (sumBefore ds i) (endTime ds i)).
Proof.
  intros Hi Hd. unfold shownAt.
  destruct (verse_overlays paths ds tH aH ayat i d Hi Hd) as (ty & ay & -> & _).
  done.
Qed.

End WindowFacts.

(** C2, as the code has it.  For every verse [i] that has a duration, its
    translation overlay and its primary-text overlay carry the same
    predicate [between(t, start[i], end[i])], true exactly for
    [start[i] <= t <= end[i]]: a closed window.  For the verse with
    start 2 and end 5 (durations 2, 3) it is true exactly on [2, 5].  For
    two verses the windows share only the instant [end[0] = start[1]]:
    when both predicates hold, [t] equals [end[0]]; and when
    [0 <= end[0] <= total], both do hold at [end[0]] and every [t] with
    [0 <= t <= total] is in one of the two windows. *)
Theorem overlay_window_is_closed :
  (∀ paths ds tH aH (ayat : list Ayah) i d,
     (i < length ayat)%nat → ds !! i = Some d →
     let g := (filterGraph paths ds tH aH ayat).1 in
     ∃ tr ar,
       translationOverlay g i = Some tr ∧ arabicOverlay g i = Some ar
       ∧ ∀ t,
           enabledAt ar t = enabledAt tr t
           ∧ (enabledAt tr t = Some true
              ↔ (sumBefore ds i <=? t)%float = true
                ∧ (t <=? endTime ds i)%float = true))
  ∧ (∀ t, shownAt sampleGraph 1 t = Some true
          ↔ (2 <=? t)%float = true ∧ (t <=? 5)%float = true)
  ∧ (∀ paths d0 d1 tH aH (v0 v1 : Ayah),
       let ds := [d0; d1] in
       let g := (filterGraph paths ds tH aH [v0; v1]).1 in
       let e0 := endTime ds 0 in
       (∀ t, shownAt g 0 t = Some true → shownAt g 1 t = Some true →
             (t =? e0)%float = true)
       ∧ ((0 <=? e0)%float = true → (e0 <=? totalDuration ds)%float = true →
          shownAt g 0 e0 = Some true ∧ shownAt g 1 e0 = Some true
          ∧ ∀ t, (0 <=? t)%float = true → (t <=? totalDuration ds)%float = true →
                 shownAt g 0 t = Some true ∨ shownAt g 1 t = Some true)).
Proof.
  split; [|split].
  - intros paths ds tH aH ayat i d Hi Hd g.
    destruct (verse_overlays paths ds tH aH ayat i d Hi Hd) as (ty & ay & Htr & Har).
    eexists _, _. split; [exact Htr|]. split; [exact Har|].
    intros t. split; [done|]. simpl. rewrite <- between_iff.
    split; congruence.
  - intros t. unfold sampleGraph.
    rewrite (shownAt_between _ _ _ _ sampleAyat 1 3%float) by (simpl; (lia || done)).
    change (sumBefore [2; 3] 1)%float with 2%float.
    change (endTime [2; 3] 1)%float with 5%float.
    rewrite <- between_iff. split; congruence.
  - intros paths d0 d1 tH aH v0 v1 ds g e0.
    assert (∀ t, shownAt g 0 t = Some (between t 0 e0)) as H0.
    { intros t. subst g. by rewrite (shownAt_between _ _ _ _ _ 0 d0) by (simpl; (lia || done)). }
    assert (∀ t, shownAt g 1 t = Some (between t e0 (totalDuration ds))) as H1.
    { intros t. subst g. by rewrite (shownAt_between _ _ _ _ _ 1 d1) by (simpl; (lia || done)). }
    split.
    + intros t. rewrite H0, H1. intros [= [_ Hle]%between_iff] [= [Hge _]%between_iff].
      by apply FloatOrder.le_antisym.
    + intros Hpos Hend. rewrite H0, H1. split; [|split].
      * f_equal. apply between_iff. split; [done|].
        eapply FloatOrder.le_refl_l; eauto.
      * f_equal. apply between_iff. split; [|done].
        eapply FloatOrder.le_refl_l; eauto.
      * intros t Ht0 Ht1. rewrite H0, H1.
        destruct (FloatOrder.le_total t e0 _ _ Ht0 Hend) as [Hle | Hge].
        -- left. f_equal. by apply between_iff.
        -- right. f_equal. by apply between_iff.
Qed.

Lemma overlay_window_is_closed_witness :
  (0 <=? endTime [2; 3] 0)%float = true
  ∧ (endTime [2; 3] 0 <=? totalDuration [2; 3])%float = true
  ∧ shownAt sampleGraph 0 2%float = Some true
  ∧ shownAt sampleGraph 1 2%float = Some true.
Proof.
  split; [reflexivity|]. split; [reflexivity|].
  destruct overlay_window_is_closed as (_ & _ & H).
  destruct (H ["a0.png"; "a1.png"] 2%float 3%float [45; 45] [100; 100]
              sampleVerse0 sampleVerse1) as [_ Hb].
  destruct (Hb eq_refl eq_refl) as (H0 & H1 & _).
  split; [exact H0 | exact H1].
Defined.

(** The window is not half-open: in the sample graph verse 1 has start 2
    and end 5, and its overlays are enabled at t = 5, where the half-open
    window is false; and at t = 2 the overlays of verse 0 and verse 1 are
    both enabled. *)
Lemma window_not_half_open :
  arabicOverlay sampleGraph 1
  = Some (TextOverlay (trans 1) 5 (Some 1301) (Some 2%float) 5%float (arabic 1))
  ∧ shownAt sampleGraph 1 5%float = Some true
  ∧ halfOpen 5%float 2%float 5%float = false
  ∧ shownAt sampleGraph 0 2%float = Some true
  ∧ shownAt sampleGraph 1 2%float = Some true.
Proof. repeat split; reflexivity. Qed.

(** ** Running effectful code *)

(** Unfold the monad down to functions on worlds. *)
Ltac run :=
  repeat (unfold mbind, M_bind, bind, mret, M_ret, ret, throw, throwIf, when,
            emit, getHistory, writeFileSync, tryCatch; simpl).

Section RunFacts.

Context {A B : Type}.

Lemma run_bind (m : M A) (k : A → M B) (w : World) :
  (m ≫= k) w
  = match m w with
    | (Ok a, w') => k a w'
    | (Throw e, w') => (Throw e, w')
    end.
Proof. reflexivity. Qed.

Lemma run_bind_ok (m : M A) (k : A → M B) w a w' :
  m w = (Ok a, w') → (m ≫= k) w = k a w'.
Proof. intros H. by rewrite run_bind, H. Qed.

Lemma run_bind_throw (m : M A) (k : A → M B) w e w' :
  m w = (Throw e, w') → (m ≫= k) w = (Throw e, w').
Proof. intros H. by rewrite run_bind, H. Qed.

End RunFacts.

(** ** Concatenation *)

(** C5.  Concatenating an empty list of paths fails, with the error
    "No <type> files to concatenate" (the NoMediaError of the design);
    concatenating exactly one path returns that path; in both cases
    nothing is written and ffmpeg is not run: the world is unchanged. *)
Theorem concatenate_empty_fails_single_is_identity
    (E : Env) (type : MediaType) (tempDir : string) (w : World) :
  concatenateMedia E [] type tempDir w
  = (Throw ("No " +:+ typeName type +:+ " files to concatenate"), w)
  ∧ ∀ only, concatenateMedia E [only] type tempDir w = (Ok only, w).
Proof. split; [reflexivity|]. intros only. reflexivity. Qed.

(** ** Graph construction without checks *)

Section BuildFacts.

Context (E : Env).

Lemma buildVideoWithOverlays_run videoPath audioPath arabicImagePaths
    translationImagePaths ayat durations translationTextHeights
    arabicTextHeights tempDir w :
  let command :=
    overlayCommand E videoPath audioPath arabicImagePaths translationImagePaths
      ayat durations translationTextHeights arabicTextHeights tempDir in
  buildVideoWithOverlays E videoPath audioPath arabicImagePaths
    translationImagePaths ayat durations translationTextHeights
    arabicTextHeights tempDir w
  = (match ffmpegEncode E (history w) command with
     | Some message => Throw message
     | None => Ok (cmdOutput command)
     end,
     {| dirs := dirs w; history := history w ++ [EvEncode command] |}).
Proof.
  intros command. unfold buildVideoWithOverlays. fold command.
  rewrite run_bind. simpl. rewrite run_bind. simpl.
  by destruct (ffmpegEncode E (history w) command).
Qed.

Lemma overlayCommand_filter videoPath audioPath arabicImagePaths
    translationImagePaths ayat durations translationTextHeights
    arabicTextHeights tempDir :
  let command :=
    overlayCommand E videoPath audioPath arabicImagePaths translationImagePaths
      ayat durations translationTextHeights arabicTextHeights tempDir in
  (cmdFilter command, cmdMap command)
  = filterGraph arabicImagePaths durations translationTextHeights
      arabicTextHeights ayat
  ∧ cmdDuration command = totalDuration durations.
Proof. simpl. unfold overlayCommand. by destruct (filterGraph _ _ _ _ _). Qed.

(** Rasterizing the verses never fails and yields one image path and one
    height per verse, in verse order. *)
Lemma generateArabicLoop_run remaining tempDir imagePaths textHeights w :
  ∃ paths w',
    generateArabicLoop E remaining tempDir imagePaths textHeights w
    = (Ok (imagePaths ++ paths,
           textHeights
           ++ ((λ ayah, totalHeight (layoutArabicText (measureFont E) (aya ayah)))
               <$> remaining)), w')
    ∧ length paths = length remaining
    ∧ dirs w' = dirs w.
Proof.
  revert imagePaths textHeights w.
  induction remaining as [|ayah rest IH]; intros imagePaths textHeights w.
  - exists [], w. simpl. by rewrite !app_nil_r.
  - cbn [generateArabicLoop]. rewrite run_bind.
    unfold renderArabicTextImage at 1. rewrite run_bind. simpl.
    edestruct IH as (paths & w' & -> & Hlen & Hdirs).
    eexists (_ :: paths), w'. split; [|split].
    + by rewrite <- !app_assoc.
    + simpl. by rewrite Hlen.
    + by rewrite Hdirs.
Qed.

Lemma generateTranslationLoop_run remaining tempDir imagePaths textHeights w :
  ∃ paths w',
    generateTranslationLoop E remaining tempDir imagePaths textHeights w
    = (Ok (imagePaths ++ paths,
           textHeights
           ++ ((λ ayah, totalHeight
                          (layoutTranslationText (measureFont E) (translation ayah)))
               <$> remaining)), w')
    ∧ length paths = length remaining
    ∧ dirs w' = dirs w.
Proof.
  revert imagePaths textHeights w.
  induction remaining as [|ayah rest IH]; intros imagePaths textHeights w.
  - exists [], w. simpl. by rewrite !app_nil_r.
  - cbn [generateTranslationLoop]. rewrite run_bind.
    unfold renderTranslationTextImage at 1. rewrite run_bind. simpl.
    edestruct IH as (paths & w' & -> & Hlen & Hdirs).
    eexists (_ :: paths), w'. split; [|split].
    + by rewrite <- !app_assoc.
    + simpl. by rewrite Hlen.
    + by rewrite Hdirs.
Qed.

End BuildFacts.

(** C3, as the code has it.  Graph construction does not compare the
    lengths of its lists and has no alignment error: for any verse list
    and any layer lists, of equal length or not, it emits the four fixed
    operations followed by the two overlays of each verse, in verse order,
    chained through the labels; an overlay whose height is missing gets
    the position NaN.  The graph is handed to ffmpeg in full, and the
    construction fails only if ffmpeg does.  Within a request the layer
    lists are rasterized from the verse list itself, so they have one
    entry per verse, in verse order. *)
Theorem graph_built_for_any_layer_lists (E : Env) :
  (∀ paths ds tH aH (ayat : list Ayah),
     let g := filterGraph paths ds tH aH ayat in
     take 4 g.1 = fixedParts
     ∧ length g.1 = (4 + 2 * length ayat)%nat
     ∧ g.2 = baseLabel (length ayat)
     ∧ ∀ i, (i < length ayat)%nat →
         ∃ ty ay a b,
           translationOverlay g.1 i
           = Some (TextOverlay (baseLabel i) (i + length paths + 4) ty a b (trans i))
           ∧ arabicOverlay g.1 i
             = Some (TextOverlay (trans i) (i + 4) ay a b (arabic i))
           ∧ (ty = None ↔ tH !! i = None)
           ∧ (ay = None ↔ tH !! i = None ∨ aH !! i = None))
  ∧ (∀ video audio paths tpaths ayat ds tH aH tempDir w,
       let command :=
         overlayCommand E video audio paths tpaths ayat ds tH aH tempDir in
       (cmdFilter command, cmdMap command) = filterGraph paths ds tH aH ayat
       ∧ (buildVideoWithOverlays E video audio paths tpaths ayat ds tH aH
            tempDir w).1
         = match ffmpegEncode E (history w) command with
           | Some message => Throw message
           | None =>
               Ok (Js.replace_backslashes
                     (Js.path_join tempDir "final_output.mp4"))
           end)
  ∧ (∀ ayat tempDir w,
       ∃ paths w',
         generateArabicImages E ayat tempDir w
         = (Ok (paths,
                (λ ayah, totalHeight (layoutArabicText (measureFont E) (aya ayah)))
                <$> ayat), w')
         ∧ length paths = length ayat)
  ∧ (∀ ayat tempDir w,
       ∃ paths w',
         generateTranslationImages E ayat tempDir w
         = (Ok (paths,
                (λ ayah, totalHeight
                           (layoutTranslationText (measureFont E) (translation ayah)))
                <$> ayat), w')
         ∧ length paths = length ayat).
Proof.
  split; [|split; [|split]].
  - intros paths ds tH aH ayat g. subst g.
    split; [apply graph_fixed|]. split; [apply graph_length|].
    split; [apply graph_label|].
    intros i Hi. destruct (graph_verse paths ds tH aH ayat i Hi) as [-> ->].
    unfold overlayStep. simpl. eexists _, _, _, _.
    split; [reflexivity|]. split; [reflexivity|].
    unfold Js.zlift. destruct (tH !! i), (aH !! i); simpl; intuition (discriminate || eauto).
  - intros video audio paths tpaths ayat ds tH aH tempDir w command.
    split; [apply overlayCommand_filter|].
    subst command. rewrite buildVideoWithOverlays_run. simpl.
    destruct (ffmpegEncode _ _ _); [done|].
    unfold overlayCommand. by destruct (filterGraph _ _ _ _ _).
  - intros ayat tempDir w.
    destruct (generateArabicLoop_run E ayat tempDir [] [] w) as (ps & w' & H & Hl & _).
    by exists ps, w'.
  - intros ayat tempDir w.
    destruct (generateTranslationLoop_run E ayat tempDir [] [] w)
      as (ps & w' & H & Hl & _).
    by exists ps, w'.
Qed.

Lemma graph_built_for_any_layer_lists_witness :
  ∃ ty ay a b,
    translationOverlay (filterGraph [] [3%float] [] [] [sampleVerse0]).1 0
    = Some (TextOverlay with_watermark 4 ty a b (trans 0))
    ∧ arabicOverlay (filterGraph [] [3%float] [] [] [sampleVerse0]).1 0
      = Some (TextOverlay (trans 0) 4 ay a b (arabic 0))
    ∧ (ty = None ↔ ([] : list Z) !! 0%nat = None)
    ∧ (ay = None ↔ ([] : list Z) !! 0%nat = None ∨ ([] : list Z) !! 0%nat = None).
Proof.
  destruct (graph_built_for_any_layer_lists quietEnv) as [H _].
  destruct (H [] [3%float] [] [] [sampleVerse0]) as (_ & _ & _ & Hv).
  apply (Hv 0%nat). simpl. lia.
Defined.

(** One verse and no text layers at all: no error is raised, the graph
    holds both overlays of the verse, and the construction returns the
    output path. *)
Lemma misaligned_layers_still_build_graph :
  filterGraph [] [3%float] [] [] [sampleVerse0]
  = (fixedParts
     ++ [TextOverlay with_watermark 4 None (Some 0%float) 3%float (trans 0);
         TextOverlay (trans 0) 4 None (Some 0%float) 3%float (arabic 0)],
     arabic 0)
  ∧ (buildVideoWithOverlays quietEnv "bg.mp4" "audio.mp3" [] []
       [sampleVerse0] [3%float] [] [] "/tmp/r" emptyWorld).1
    = Ok "/tmp/r/final_output.mp4".
Proof. split; reflexivity. Qed.

(** ** Downloads *)

Section DownloadFacts.

Context (E : Env).

Lemma extends_refl w : extends w w [].
Proof. split; [done|]. by rewrite app_nil_r. Qed.

Lemma extends_trans w1 w2 w3 evs evs' :
  extends w1 w2 evs → extends w2 w3 evs' → extends w1 w3 (evs ++ evs').
Proof.
  intros [Hd He] [Hd' He']. split; [congruence|].
  by rewrite He', He, app_assoc.
Qed.

Lemma fetchedUrls_app evs evs' :
  fetchedUrls (evs ++ evs') = fetchedUrls evs ++ fetchedUrls evs'.
Proof. apply omap_app. Qed.

Lemma fetch_run u w :
  fetch E u w
  = (match netFetch E (history w) u with
     | FetchRejected message => Throw message
     | FetchResponse ok => Ok ok
     end,
     {| dirs := dirs w; history := history w ++ [EvFetch u] |}).
Proof.
  unfold fetch. rewrite !run_bind. simpl. by destruct (netFetch E _ u).
Qed.

(** One audio attempt fetches exactly its URL and touches no directory. *)
Lemma tryAudio_run audioUrl audioPath key w :
  ∃ evs, extends w (tryAudio E audioUrl audioPath key w).2 evs
         ∧ fetchedUrls evs = [audioUrl].
Proof.
  unfold tryAudio, tryCatch. rewrite run_bind, fetch_run.
  destruct (netFetch E (history w) audioUrl) as [message|[]]; simpl.
  - exists [EvFetch audioUrl]. by repeat split.
  - unfold getAudioDuration. run.
    exists [EvFetch audioUrl; EvWriteFile audioPath; EvProbe audioPath].
    destruct (ffprobe E _ audioPath); simpl;
      (split; [split; [done|]; simpl; by rewrite <- !app_assoc | done]).
  - exists [EvFetch audioUrl]. by repeat split.
Qed.

(** One video attempt fetches exactly its URL; when it succeeds it has
    written the file, after an ok response. *)
Lemma tryVideo_run videoUrl videoPath w :
  ∃ evs, extends w (tryVideo E videoUrl videoPath w).2 evs
         ∧ fetchedUrls evs = [videoUrl]
         ∧ ((tryVideo E videoUrl videoPath w).1 = Ok tt →
            evs = [EvFetch videoUrl; EvWriteFile videoPath]
            ∧ netFetch E (history w) videoUrl = FetchResponse true).
Proof.
  unfold tryVideo, tryCatch. rewrite run_bind, fetch_run.
  destruct (netFetch E (history w) videoUrl) as [message|[]]; simpl.
  - exists [EvFetch videoUrl]. by repeat split.
  - exists [EvFetch videoUrl; EvWriteFile videoPath].
    split; [split; [done|]; simpl; by rewrite <- !app_assoc|]. done.
  - exists [EvFetch videoUrl]. by repeat split.
Qed.

Lemma downloadAudio_trace remaining i ayat tempDir paths durations w :
  let r := downloadAudio E remaining i ayat tempDir paths durations w in
  ∃ n evs,
    (n ≤ length remaining)%nat
    ∧ extends w r.2 evs
    ∧ Some <$> fetchedUrls evs = audioUrlOf <$> take n remaining
    ∧ (∀ x, r.1 = Ok x → n = length remaining).
Proof.
  revert i paths durations w.
  induction remaining as [|rf rest IH]; intros i paths durations w.
  - exists 0%nat, []. simpl. by split; [|split; [apply extends_refl|]].
  - cbn [downloadAudio].
    destruct (audio_files rf !! 0%nat) as [first|] eqn:Hfirst.
    + rewrite run_bind.
      match goal with |- context [tryAudio E ?u ?p ?k w] =>
        destruct (tryAudio_run u p k w) as (evs1 & Hext1 & Hurls1);
        destruct (tryAudio E u p k w) as [[d|e] w1]
      end; simpl in Hext1.
      * match goal with
          |- context [downloadAudio E rest (S i) ayat tempDir ?ps ?dur w1] =>
            destruct (IH (S i) ps dur w1) as (n & evs & Hn & Hext & Hurls & Hok)
        end.
        exists (S n), (evs1 ++ evs). split; [simpl; lia|].
        split; [by eapply extends_trans|]. split.
        -- rewrite fetchedUrls_app, fmap_app, Hurls1, Hurls. simpl.
           unfold audioUrlOf. by rewrite Hfirst.
        -- intros x Hx. simpl. f_equal. eauto.
      * exists 1%nat, evs1. split; [simpl; lia|]. split; [done|]. split.
        -- rewrite Hurls1. simpl. rewrite ?take_0. simpl.
           unfold audioUrlOf. by rewrite Hfirst.
        -- intros x Hx. done.
    + exists 0%nat, []. split; [lia|]. split; [apply extends_refl|].
      split; [done|]. intros x Hx. done.
Qed.

Lemma filter_eligible_cons videoUrl rest :
  filter eligible (videoUrl :: rest)
  = (if Js.startsWith videoUrl pixabayPrefix then [videoUrl] else [])
    ++ filter eligible rest.
Proof.
  rewrite filter_cons. case_decide as Hel; unfold eligible in Hel.
  - by rewrite Hel.
  - by destruct (Js.startsWith videoUrl pixabayPrefix).
Qed.

Lemma downloadVideos_trace remaining index tempDir paths w :
  let r := downloadVideos E remaining index tempDir paths w in
  ∃ n evs,
    (n ≤ length remaining)%nat
    ∧ extends w r.2 evs
    ∧ fetchedUrls evs = filter eligible (take n remaining)
    ∧ (∀ ps, r.1 = Ok ps →
         n = length remaining
         ∧ evs = mjoin (imap (λ k, videoEvents tempDir (index + k)) remaining)
         ∧ ps = paths
                ++ mjoin (imap (λ k, videoPathsFrom tempDir (index + k)) remaining)).
Proof.
  revert index paths w.
  induction remaining as [|videoUrl rest IH]; intros index paths w.
  - exists 0%nat, []. simpl. split; [done|]. split; [apply extends_refl|].
    split; [done|]. intros ps [= <-]. by rewrite app_nil_r.
  - cbn [downloadVideos].
    assert (∀ (f : nat → string → list Event),
              imap (λ k, f (index + k)%nat) (videoUrl :: rest)
              = f index videoUrl :: imap (λ k, f (S index + k)%nat) rest) as Himap.
    { intros f. rewrite imap_cons, Nat.add_0_r. f_equal.
      apply imap_ext. intros k u _. simpl. f_equal. lia. }
    assert (∀ (f : nat → string → list string),
              imap (λ k, f (index + k)%nat) (videoUrl :: rest)
              = f index videoUrl :: imap (λ k, f (S index + k)%nat) rest) as Himap'.
    { intros f. rewrite imap_cons, Nat.add_0_r. f_equal.
      apply imap_ext. intros k u _. simpl. f_equal. lia. }
    rewrite Himap, Himap'. unfold videoEvents at 1, videoPathsFrom at 1.
    destruct (Js.startsWith videoUrl pixabayPrefix) eqn:Hel.
    + rewrite run_bind.
      match goal with |- context [tryVideo E ?u ?p w] =>
        destruct (tryVideo_run u p w) as (evs1 & Hext1 & Hurls1 & Hok1);
        destruct (tryVideo E u p w) as [[[]|e] w1]
      end; simpl in Hext1, Hok1.
      * destruct (IH (S index) (paths ++ [videoPathOf tempDir index]) w1)
          as (n & evs & Hn & Hext & Hurls & Hok).
        exists (S n), (evs1 ++ evs). split; [simpl; lia|].
        split; [by eapply extends_trans|]. split.
        -- rewrite fetchedUrls_app, Hurls1, Hurls. simpl.
           by rewrite filter_eligible_cons, Hel.
        -- intros ps Hps. destruct (Hok ps Hps) as (-> & -> & ->).
           destruct (Hok1 eq_refl) as [-> _]. simpl.
           by rewrite <- !app_assoc.
      * exists 1%nat, evs1. split; [simpl; lia|]. split; [done|]. split.
        -- rewrite Hurls1. simpl. rewrite ?take_0.
           by rewrite filter_eligible_cons, Hel.
        -- intros ps Hps. done.
    + destruct (IH (S index) paths w)
        as (n & evs & Hn & Hext & Hurls & Hok).
      exists (S n), evs. split; [simpl; lia|]. split; [done|]. split.
      * simpl. by rewrite filter_eligible_cons, Hel.
      * intros ps Hps. destruct (Hok ps Hps) as (-> & -> & ->). done.
Qed.

End DownloadFacts.

Section RequestFacts.

Context (E : Env).

Lemma imap_shift {X Y} (f : nat → X → Y) (i : nat) (x : X) (l : list X) :
  imap (λ k, f (i + k)%nat) (x :: l) = f i x :: imap (λ k, f (S i + k)%nat) l.
Proof.
  rewrite imap_cons, Nat.add_0_r. f_equal.
  apply imap_ext. intros k u _. simpl. f_equal. lia.
Qed.


Lemma downloadFiles_run recitation_files background ayat tempDir w :
  downloadFiles E recitation_files background ayat tempDir w
  = match downloadAudio E recitation_files 0 ayat tempDir [] [] w with
    | (Throw e, w1) => (Throw e, w1)
    | (Ok (audioPaths, audioDurations), w1) =>
        match downloadVideos E (links background) 0 tempDir [] w1 with
        | (Throw e, w2) => (Throw e, w2)
        | (Ok videoPaths, w2) =>
            if bool_decide (length videoPaths = 0%nat)
            then (Throw "No valid background video provided", w2)
            else (Ok {| audioPaths := audioPaths;
                        audioDurations := audioDurations;
                        videoPaths := videoPaths |}, w2)
        end
    end.
Proof.
  unfold downloadFiles. rewrite run_bind.
  destruct (downloadAudio _ _ _ _ _ _ _ w) as [[[aps ads]|e] w1]; [|done].
  rewrite run_bind.
  destruct (downloadVideos _ _ _ _ _ w1) as [[vps|e] w2]; [|done].
  by destruct (bool_decide _).
Qed.

Lemma downloadFiles_keeps recitation_files background ayat tempDir :
  keepsDirs (downloadFiles E recitation_files background ayat tempDir).
Proof.
  intros w. rewrite downloadFiles_run.
  destruct (downloadAudio_trace E recitation_files 0 ayat tempDir [] [] w)
    as (n & evs & _ & [Hd _] & _).
  destruct (downloadAudio _ _ _ _ _ _ _ w) as [[[aps ads]|e] w1]; [|done].
  destruct (downloadVideos_trace E (links background) 0 tempDir [] w1)
    as (n' & evs' & _ & [Hd' _] & _).
  destruct (downloadVideos _ _ _ _ _ w1) as [[vps|e] w2]; simpl in *;
    [|congruence].
  destruct (bool_decide _); simpl; congruence.
Qed.

Lemma concatenateMedia_keeps filePaths type tempDir :
  keepsDirs (concatenateMedia E filePaths type tempDir).
Proof.
  intros w. destruct filePaths as [|p [|q rest]]; [done..|].
  unfold concatenateMedia. run. by destruct (ffmpegConcat E _ _ _).
Qed.

Lemma generateArabicImages_keeps ayat tempDir :
  keepsDirs (generateArabicImages E ayat tempDir).
Proof.
  intros w. unfold generateArabicImages.
  by destruct (generateArabicLoop_run E ayat tempDir [] [] w)
    as (ps & w' & -> & _ & ?).
Qed.

Lemma generateTranslationImages_keeps ayat tempDir :
  keepsDirs (generateTranslationImages E ayat tempDir).
Proof.
  intros w. unfold generateTranslationImages.
  by destruct (generateTranslationLoop_run E ayat tempDir [] [] w)
    as (ps & w' & -> & _ & ?).
Qed.

Lemma buildVideoWithOverlays_keeps v a ps tps ayat ds tH aH tempDir :
  keepsDirs (buildVideoWithOverlays E v a ps tps ayat ds tH aH tempDir).
Proof. intros w. by rewrite buildVideoWithOverlays_run. Qed.

Lemma uploadVideoToR2_keeps videoPath videoId :
  keepsDirs (uploadVideoToR2 E videoPath videoId).
Proof.
  intros w. unfold uploadVideoToR2, uploadFileToR2. run.
  by destruct (s3Send E _ _).
Qed.

Lemma tempDir_created w : requestTempDir E ∈ dirs (withTempDir E w).
Proof.
  unfold withTempDir. case_bool_decide; [done|]. simpl.
  apply elem_of_union_l. by apply elem_of_singleton.
Qed.

(** Everything after the creation of the temporary directory, up to the
    conditional cleanup. *)
Lemma processVideoRequest_dirs recitation_files background ayat w r w' :
  processVideoRequest E recitation_files background ayat w = (r, w') →
  match r with
  | Throw _ => dirs w' = dirs (withTempDir E w)
  | Ok _ =>
      dirs w' = if debugMode E then dirs (withTempDir E w)
                else dirs (withTempDir E w) ∖ {[requestTempDir E]}
  end.
Proof.
  unfold processVideoRequest, tryCatch. rewrite run_bind.
  unfold existsSync at 1. cbv beta iota. rewrite run_bind.
  assert ((when (negb (bool_decide (requestTempDir E ∈ dirs w)))
             (mkdirSync (requestTempDir E))) w = (Ok tt, withTempDir E w)) as ->.
  { unfold withTempDir. by destruct (bool_decide _). }
  generalize (withTempDir E w). intros w1.
  rewrite run_bind.
  pose proof (downloadFiles_keeps recitation_files background ayat
                (requestTempDir E) w1) as H1.
  destruct (downloadFiles _ _ _ _ _ w1) as [[d|e] w2]; simpl in H1;
    [|by intros [= <- <-]].
  rewrite run_bind.
  pose proof (concatenateMedia_keeps (videoPaths d) video (requestTempDir E) w2) as H2.
  destruct (concatenateMedia _ _ video _ w2) as [[fv|e] w3]; simpl in H2;
    [|intros [= <- <-]; congruence].
  rewrite run_bind.
  pose proof (concatenateMedia_keeps (audioPaths d) audio (requestTempDir E) w3) as H3.
  destruct (concatenateMedia _ _ audio _ w3) as [[fa|e] w4]; simpl in H3;
    [|intros [= <- <-]; congruence].
  rewrite run_bind.
  pose proof (generateArabicImages_keeps ayat (requestTempDir E) w4) as H4.
  destruct (generateArabicImages _ _ _ w4) as [[[aps ahs]|e] w5]; simpl in H4;
    [|intros [= <- <-]; congruence].
  rewrite run_bind.
  pose proof (generateTranslationImages_keeps ayat (requestTempDir E) w5) as H5.
  destruct (generateTranslationImages _ _ _ w5) as [[[tps ths]|e] w6]; simpl in H5;
    [|intros [= <- <-]; congruence].
  rewrite run_bind.
  pose proof (buildVideoWithOverlays_keeps fv fa aps tps ayat (audioDurations d)
                ths ahs (requestTempDir E) w6) as H6.
  destruct (buildVideoWithOverlays _ _ _ _ _ _ _ _ _ _ w6) as [[out|e] w7];
    simpl in H6; [|intros [= <- <-]; congruence].
  rewrite run_bind.
  pose proof (uploadVideoToR2_keeps out (shortId E) w7) as H7.
  destruct (uploadVideoToR2 _ _ _ w7) as [[up|e] w8]; simpl in H7;
    [|intros [= <- <-]; congruence].
  rewrite run_bind. unfold when, rmSync, ret.
  destruct (debugMode E); simpl; intros [= <- <-]; simpl; congruence.
Qed.


(** What [downloadFiles] fetches: first the audio of the recitation files,
    in order, then the eligible background links, in order; all of them
    when it returns. *)
Lemma downloadFiles_trace recitation_files background ayat tempDir w :
  let r := downloadFiles E recitation_files background ayat tempDir w in
  ∃ n m audioEvents videoEvents,
    extends w r.2 (audioEvents ++ videoEvents)
    ∧ Some <$> fetchedUrls audioEvents = audioUrlOf <$> take n recitation_files
    ∧ fetchedUrls videoEvents = filter eligible (take m (links background))
    ∧ (∀ d, r.1 = Ok d →
         n = length recitation_files ∧ m = length (links background)
         ∧ videoPaths d
           = mjoin (imap (λ k, videoPathsFrom tempDir k) (links background))
         ∧ videoPaths d ≠ []).
Proof.
  cbv zeta. rewrite downloadFiles_run.
  destruct (downloadAudio_trace E recitation_files 0 ayat tempDir [] [] w)
    as (n & evsA & _ & HextA & HurlsA & HokA).
  destruct (downloadAudio _ _ _ _ _ _ _ w) as [[[aps ads]|e] w1];
    simpl in HextA, HokA.
  - destruct (downloadVideos_trace E (links background) 0 tempDir [] w1)
      as (m & evsV & _ & HextV & HurlsV & HokV).
    destruct (downloadVideos _ _ _ _ _ w1) as [[vps|e] w2];
      simpl in HextV, HokV.
    + exists n, m, evsA, evsV.
      destruct (HokV vps eq_refl) as (-> & _ & Hvps). simpl in Hvps.
      case_bool_decide as Hlen; simpl.
      * split; [by eapply extends_trans|]. split; [done|]. split; [done|].
        intros d [=].
      * split; [by eapply extends_trans|]. split; [done|]. split; [done|].
        intros d [= <-]. simpl. split; [eauto|]. split; [done|].
        split; [done|]. by destruct vps.
    + exists n, m, evsA, evsV. simpl.
      split; [by eapply extends_trans|]. split; [done|]. split; [done|].
      intros d [=].
  - exists n, 0%nat, evsA, []. simpl. rewrite app_nil_r.
    split; [done|]. split; [done|]. split; [done|]. intros d [=].
Qed.



End RequestFacts.



(** ** Cleanup of the temporary directory *)

(** C9, what the code does.  A request that succeeds leaves its temporary
    directory in place exactly when the debug flag is set.  A request that
    fails leaves the directory in place whatever the debug flag: the
    failure path has no cleanup. *)
Theorem temp_dir_left_behind_on_failure (E : Env)
    (recitation_files : list RecitationFile) (background : Background)
    (ayat : list Ayah) (w : World) (r : Result VideoResult) (w' : World) :
  processVideoRequest E recitation_files background ayat w = (r, w') →
  match r with
  | Throw _ => requestTempDir E ∈ dirs w'
  | Ok _ => requestTempDir E ∈ dirs w' ↔ debugMode E = true
  end.
Proof.
  intros Hrun.
  pose proof (processVideoRequest_dirs E _ _ _ _ _ _ Hrun) as Hdirs.
  pose proof (tempDir_created E w) as Hin.
  destruct r as [v|e]; [|by rewrite Hdirs].
  rewrite Hdirs. destruct (debugMode E); [done|].
  split; [|done].
  intros [_ Hout]%elem_of_difference. exfalso. apply Hout.
  by apply elem_of_singleton.
Qed.

(** In production mode (debug flag off) a request whose only background
    link is not eligible fails with "No valid background video provided",
    having created its temporary directory, and the directory is still
    there afterwards: the history holds its creation and no removal. *)
Lemma temp_dir_left_behind_on_failure_witness :
  debugMode quietEnv = false
  ∧ (processVideoRequest quietEnv [] strayBackground [] emptyWorld).1
    = Throw "No valid background video provided"
  ∧ history (processVideoRequest quietEnv [] strayBackground [] emptyWorld).2
    = [EvMkdir "/app/temp/1700000000000-42"]
  ∧ requestTempDir quietEnv
    ∈ dirs (processVideoRequest quietEnv [] strayBackground [] emptyWorld).2.
Proof.
  split; [reflexivity|]. split; [reflexivity|]. split; [reflexivity|].
  apply (temp_dir_left_behind_on_failure quietEnv [] strayBackground []
           emptyWorld (Throw "No valid background video provided")).
  reflexivity.
Defined.

(** ** Audio URLs *)



(** * Further properties of the code *)

(** ** Paths *)

Module PathFacts.

Lemma noSlash_app a b : noSlash (a +:+ b) = noSlash a && noSlash b.
Proof.
  induction a as [|c a IH]; [by rewrite StringFacts.app_nil_l|].
  rewrite StringFacts.app_cons. cbn [noSlash]. by rewrite IH, andb_assoc.
Qed.

Lemma noSlash_pretty_N_go x s : noSlash s = true → noSlash (pretty_N_go x s) = true.
Proof.
  revert s. induction (N.lt_wf_0 x) as [x _ IH]; intros s Hs.
  assert (x = 0 ∨ 0 < x)%N as [->|Hx] by lia.
  - by rewrite pretty_N_go_0.
  - rewrite pretty_N_go_step by done. apply IH; [by apply N.div_lt|].
    cbn [noSlash]. rewrite Hs, andb_true_r.
    unfold pretty_N_char. by repeat case_match.
Qed.

Lemma noSlash_pretty_nat (n : nat) : noSlash (pretty n) = true.
Proof.
  unfold pretty, pretty_nat, pretty, pretty_N.
  case_decide; [done|]. by apply noSlash_pretty_N_go.
Qed.

Lemma segments_nonempty s : Js.segments s ≠ [].
Proof.
  destruct s as [|c s]; [done|]. cbn [Js.segments].
  destruct (Ascii.eqb c "/"); [done|]. by destruct (Js.segments s).
Qed.

Lemma segments_app_slash a b :
  Js.segments (a +:+ String "/" b) = Js.segments a ++ Js.segments b.
Proof.
  induction a as [|c a IH]; [by rewrite StringFacts.app_nil_l|].
  rewrite StringFacts.app_cons. cbn [Js.segments]. rewrite IH.
  destruct (Ascii.eqb c "/"); [done|].
  pose proof (segments_nonempty a). by destruct (Js.segments a).
Qed.

Lemma segments_noSlash s : noSlash s = true → Js.segments s = [s].
Proof.
  induction s as [|c s IH]; [done|]. cbn [noSlash Js.segments].
  intros [Hc Hs]%andb_true_iff. apply negb_true_iff in Hc.
  by rewrite Hc, (IH Hs).
Qed.

Lemma startsWith_noSlash s : noSlash s = true → Js.startsWith s "/" = false.
Proof.
  destruct s as [|c s]; [done|]. cbn [noSlash Js.startsWith].
  intros [Hc _]%andb_true_iff. apply negb_true_iff in Hc.
  by rewrite Ascii.eqb_sym, Hc.
Qed.

Lemma endsWithSlash_noSlash s : noSlash s = true → Js.endsWithSlash s = false.
Proof.
  induction s as [|c s IH]; [done|]. cbn [noSlash].
  intros [Hc Hs]%andb_true_iff. apply negb_true_iff in Hc.
  cbn [Js.endsWithSlash]. destruct s; [done|]. by apply IH.
Qed.

Lemma endsWithSlash_app a b :
  b ≠ "" → Js.endsWithSlash (a +:+ b) = Js.endsWithSlash b.
Proof.
  intros Hb. induction a as [|c a IH]; [by rewrite StringFacts.app_nil_l|].
  rewrite StringFacts.app_cons. cbn [Js.endsWithSlash].
  destruct (a +:+ b) as [|d r] eqn:Hab; [|done].
  destruct a; [|by rewrite StringFacts.app_cons in Hab].
  rewrite StringFacts.app_nil_l in Hab. done.
Qed.

Lemma startsWith_app_nonempty a b p :
  a ≠ "" → Js.startsWith (a +:+ b) (String p "") = Js.startsWith a (String p "").
Proof.
  destruct a as [|c a]; [done|]. intros _.
  rewrite StringFacts.app_cons. cbn [Js.startsWith].
  by destruct (a +:+ b), a.
Qed.

Lemma concat_snoc sep l x :
  String.concat sep (l ++ [x])
  = match l with
    | [] => x
    | _ => String.concat sep l +:+ sep +:+ x
    end.
Proof.
  induction l as [|a l IH]; [done|].
  cbn [app]. destruct l as [|b l].
  - cbn [app String.concat]. done.
  - change (String.concat sep (a :: (b :: l) ++ [x]))
      with (a +:+ sep +:+ String.concat sep ((b :: l) ++ [x])).
    rewrite IH.
    change (String.concat sep (a :: b :: l))
      with (a +:+ sep +:+ String.concat sep (b :: l)).
    by rewrite <- !StringFacts.app_assoc.
Qed.

Lemma eqb_false (a b : string) : a ≠ b → String.eqb a b = false.
Proof. by intros ?%String.eqb_neq. Qed.

Lemma normalizeStep_file allowAboveRoot kept name :
  fileName name → Js.normalizeStep allowAboveRoot kept name = name :: kept.
Proof.
  intros (_ & H0 & H1 & H2). unfold Js.normalizeStep.
  by rewrite !eqb_false.
Qed.

Lemma app_nonempty_r (a b : string) : b ≠ "" → a +:+ b ≠ "".
Proof.
  intros Hb H. apply (f_equal String.length) in H.
  rewrite StringFacts.length_app in H. destruct b; [done|]. simpl in H. lia.
Qed.

(** [path.join] on a file name only normalizes the directory. *)
Lemma path_join_file dir name :
  fileName name → Js.path_join dir name = dirPrefix dir +:+ name.
Proof.
  intros Hname. pose proof Hname as (Hslash & Hne & _).
  unfold Js.path_join, dirPrefix. rewrite (eqb_false name "") by done.
  destruct (String.eqb_spec dir "") as [->|Hdir].
  - unfold Js.path_normalize, Js.normalizeString.
    rewrite (eqb_false name "") by done.
    rewrite startsWith_noSlash, endsWithSlash_noSlash, segments_noSlash by done.
    cbn [fold_left negb]. rewrite normalizeStep_file by done.
    cbn. rewrite (eqb_false name "") by done. by destruct name.
  - unfold Js.path_normalize, Js.normalizeString.
    rewrite (eqb_false (dir +:+ "/" +:+ name) "")
      by (apply app_nonempty_r; by destruct name).
    rewrite (startsWith_app_nonempty dir) by done.
    change ("/" +:+ name) with (String "/" name).
    rewrite endsWithSlash_app by done.
    assert (Js.endsWithSlash (String "/" name) = false) as ->.
    { destruct name as [|c name]; [done|].
      change (Js.endsWithSlash (String "/" (String c name)))
        with (Js.endsWithSlash (String c name)).
      by apply endsWithSlash_noSlash. }
    rewrite segments_app_slash, (segments_noSlash name) by done.
    rewrite fold_left_app. cbn [fold_left].
    rewrite normalizeStep_file by done. cbn [rev]. rewrite concat_snoc.
    set (kept := rev (fold_left _ (Js.segments dir) [])).
    assert (match kept with
            | [] => name
            | _ :: _ => String.concat "/" kept +:+ "/" +:+ name
            end
            = match kept with
              | [] => ""
              | _ :: _ => String.concat "/" kept +:+ "/"
              end +:+ name) as ->.
    { destruct kept; [by rewrite StringFacts.app_nil_l|].
      by rewrite <- StringFacts.app_assoc. }
    rewrite eqb_false by (by apply app_nonempty_r).
    clearbody kept.
    destruct kept, (Js.startsWith dir "/");
      by rewrite ?StringFacts.app_nil_l, <- ?StringFacts.app_assoc.
Qed.

Lemma dirPrefix_shape dir :
  dirPrefix dir = "" ∨ ∃ q, dirPrefix dir = q +:+ "/".
Proof.
  unfold dirPrefix.
  destruct (rev _) as [|a l]; destruct (Js.startsWith dir "/").
  - right. by exists "".
  - by left.
  - right. eexists. by rewrite StringFacts.app_assoc.
  - right. eexists. by rewrite StringFacts.app_nil_l.
Qed.

Lemma filter_snoc {A} (f : A → bool) l x :
  List.filter f (l ++ [x]) = List.filter f l ++ (if f x then [x] else []).
Proof. by rewrite List.filter_app. Qed.

Lemma basename_file prefix name :
  fileName name →
  prefix = "" ∨ (∃ q, prefix = q +:+ "/") →
  Js.basename (prefix +:+ name) = name.
Proof.
  intros (Hslash & Hne & _) Hprefix. unfold Js.basename.
  assert (∃ l, Js.segments (prefix +:+ name) = l ++ [name]) as [l ->].
  { destruct Hprefix as [->|[q ->]].
    - exists []. by rewrite StringFacts.app_nil_l, segments_noSlash.
    - exists (Js.segments q). rewrite StringFacts.app_assoc.
      change ("/" +:+ name) with (String "/" name).
      by rewrite segments_app_slash, (segments_noSlash name). }
  rewrite filter_snoc, (eqb_false name "") by done.
  cbn [negb]. by rewrite last_snoc.
Qed.

Lemma replace_backslashes_app a b :
  Js.replace_backslashes (a +:+ b)
  = Js.replace_backslashes a +:+ Js.replace_backslashes b.
Proof.
  induction a as [|c a IH]; [by rewrite !StringFacts.app_nil_l|].
  rewrite StringFacts.app_cons. cbn [Js.replace_backslashes].
  by rewrite IH, StringFacts.app_cons.
Qed.

Lemma fileName_final : fileName "final_output.mp4".
Proof. by repeat split. Qed.

(** The name of the request's output file survives the normalization and
    the replacement of backslashes. *)
Lemma basename_final tempDir :
  Js.basename (Js.replace_backslashes (Js.path_join tempDir "final_output.mp4"))
  = "final_output.mp4".
Proof.
  rewrite (path_join_file _ _ fileName_final), replace_backslashes_app.
  change (Js.replace_backslashes "final_output.mp4") with "final_output.mp4".
  apply (basename_file _ _ fileName_final).
  destruct (dirPrefix_shape tempDir) as [->|[q ->]]; [by left|].
  right. exists (Js.replace_backslashes q). by rewrite replace_backslashes_app.
Qed.

Lemma fileName_background (index : nat) :
  fileName ("background_" +:+ pretty index +:+ ".mp4").
Proof.
  split; [|by repeat split].
  by rewrite !noSlash_app, noSlash_pretty_nat.
Qed.



End PathFacts.

(** ** Word wrap: what the lines hold *)

Section WrapContent.

Variable measureText : string → float.
Variable maxWidth : float.

Lemma concat_empty_sep (l : list string) :
  String.concat "" l = foldr String.append "" l.
Proof.
  induction l as [|x l IH]; [done|].
  destruct l as [|y l]; simpl in *.
  - by rewrite StringFacts.app_nil_r.
  - by rewrite IH.
Qed.

Lemma lineOf_join (groups : list (list string)) :
  foldr String.append "" (lineOf <$> groups) = lineOf (mjoin groups).
Proof.
  induction groups as [|g groups IH]; [done|].
  rewrite fmap_cons. cbn [foldr]. rewrite IH.
  change (mjoin (g :: groups)) with (g ++ mjoin groups).
  by rewrite lineOf_app.
Qed.

(** Putting a space after every piece of [text.split(' ')] spells the
    text followed by one space. *)
Lemma lineOf_split_space (text : string) :
  lineOf (Js.split_space text) = text +:+ " ".
Proof.
  induction text as [|c text IH]; [done|].
  simpl. destruct (Ascii.eqb_spec c " ") as [->|Hc].
  - simpl. by rewrite IH.
  - destruct (Js.split_space text) as [|w ws]; simpl in *.
    + by destruct text.
    + by rewrite (StringFacts.app_cons c w), (StringFacts.app_cons c text), IH.
Qed.

Local Abbreviation fitsOrSingle := (fitsOrSingle measureText maxWidth).

Lemma groupStep_fits gs g w :
  Forall fitsOrSingle gs → fitsOrSingle g →
  let st := groupStep measureText maxWidth (gs, g) w in
  Forall fitsOrSingle st.1 ∧ fitsOrSingle st.2.
Proof.
  intros Hgs Hg. unfold groupStep.
  destruct (maxWidth <? _)%float eqn:Hwide; simpl.
  - destruct g as [|v g]; simpl.
    + split; [done|]. left. simpl. lia.
    + split; [|left; simpl; lia].
      apply Forall_app. split; [done|]. by apply Forall_singleton.
  - split; [done|]. by right.
Qed.

Lemma groupLoop_fits words gs g :
  Forall fitsOrSingle gs → fitsOrSingle g →
  let st := groupLoop measureText maxWidth words (gs, g) in
  Forall fitsOrSingle st.1 ∧ fitsOrSingle st.2.
Proof.
  unfold groupLoop. revert gs g.
  induction words as [|w words IH]; intros gs g Hgs Hg; cbn [fold_left]; [done|].
  destruct (groupStep_fits gs g w Hgs Hg) as [Hgs' Hg'].
  destruct (groupStep measureText maxWidth (gs, g) w) as [gs1 g1].
  by apply IH.
Qed.

(** The lines of a text as groups of its words. *)
Lemma wrapText_groups (text : string) :
  ∃ groups : list (list string),
    mjoin groups = Js.split_space text
    ∧ Forall (λ group, group ≠ []) groups
    ∧ Forall fitsOrSingle groups
    ∧ wrapText measureText maxWidth text = lineOf <$> groups.
Proof.
  unfold wrapText. rewrite wrapWords_groups.
  pose proof (groupLoop_partition measureText maxWidth
                (Js.split_space text) [] []) as (Hcat & Hne & Hopen).
  assert (fitsOrSingle []) as Hnil by (left; simpl; lia).
  pose proof (groupLoop_fits (Js.split_space text) [] [] (Forall_nil_2 _) Hnil)
    as [Hfits Hfit].
  destruct (groupLoop _ _ _ _) as [gs g]. simpl in *.
  exists (gs ++ [g]). split; [|split; [|split; [|done]]].
  - rewrite join_app. simpl. by rewrite app_nil_r.
  - apply Forall_app. split; [by apply Hne|].
    apply Forall_singleton, Hopen. right. apply split_space_nonempty.
  - apply Forall_app. split; [done|]. by apply Forall_singleton.
Qed.

Lemma nonempty_groups_count (groups : list (list string)) :
  Forall (λ group, group ≠ []) groups →
  (length groups ≤ length (mjoin groups))%nat.
Proof.
  induction 1 as [|g groups Hg _ IH]; [done|].
  simpl. rewrite length_app. destruct g; [done|]. simpl. lia.
Qed.

Lemma wrapText_length_bounds (text : string) :
  (1 ≤ length (wrapText measureText maxWidth text)
   ≤ length (Js.split_space text))%nat.
Proof.
  destruct (wrapText_groups text) as (groups & Hcat & Hne & _ & ->).
  rewrite length_fmap, <- Hcat.
  split; [|by apply nonempty_groups_count].
  destruct groups; [|simpl; lia].
  simpl in Hcat. symmetry in Hcat. by apply split_space_nonempty in Hcat.
Qed.

End WrapContent.

(** X1.  Wrapping loses and adds nothing but one final space: the lines,
    put end to end, spell the text followed by a single space, whatever
    the font metrics and the wrap width. *)
Theorem wrap_preserves_text (measureText : string → float) (maxWidth : float)
    (text : string) :
  String.concat "" (wrapText measureText maxWidth text) = text +:+ " ".
Proof.
  destruct (wrapText_groups measureText maxWidth text)
    as (groups & Hcat & _ & _ & ->).
  by rewrite concat_empty_sep, lineOf_join, Hcat, lineOf_split_space.
Qed.

(** X2.  Only a line made of a single word can be wider than the wrap
    width: a line on which [measureText] exceeds [maxWidth] is one piece
    of [text.split(' ')] followed by a space. *)
Theorem overflowing_line_is_one_word (measureText : string → float)
    (maxWidth : float) (text line : string) :
  line ∈ wrapText measureText maxWidth text →
  (maxWidth <? measureText line)%float = true →
  ∃ word, word ∈ Js.split_space text ∧ line = word +:+ " ".
Proof.
  destruct (wrapText_groups measureText maxWidth text)
    as (groups & Hcat & Hne & Hfits & ->).
  intros (g & -> & Hg)%list_elem_of_fmap Hwide.
  rewrite Forall_forall in Hfits, Hne.
  destruct (Hfits g Hg) as [Hone | Hfit]; [|congruence].
  specialize (Hne g Hg).
  destruct g as [|word [|? ?]]; [done| |simpl in Hone; lia].
  exists word. split; [|done].
  rewrite <- Hcat. apply list_elem_of_join. exists [word].
  split; [apply list_elem_of_here | done].
Qed.

Lemma overflowing_line_is_one_word_witness :
  ∃ word, word ∈ Js.split_space "abcdefghijkl xy"
          ∧ "abcdefghijkl " = word +:+ " ".
Proof.
  apply (overflowing_line_is_one_word stepMeasure 100%float
           "abcdefghijkl xy" "abcdefghijkl ").
  - apply list_elem_of_here.
  - reflexivity.
Defined.

(** X3.  A text is wrapped into at least one line and at most as many
    lines as [text.split(' ')] has pieces, so the height reported by the
    primary-text rasterizer lies between 100 and 100 times the number of
    pieces, and that of the translation rasterizer between 45 and 45
    times the number of pieces. *)
Theorem line_count_bounds (measure : Font → string → float) (text : string) :
  let pieces := Z.of_nat (length (Js.split_space text)) in
  (∀ measureText maxWidth,
     (1 ≤ length (wrapText measureText maxWidth text)
      ≤ length (Js.split_space text))%nat)
  ∧ 100 ≤ totalHeight (layoutArabicText measure text) ≤ 100 * pieces
  ∧ 45 ≤ totalHeight (layoutTranslationText measure text) ≤ 45 * pieces.
Proof.
  cbv zeta.
  split; [intros; apply wrapText_length_bounds|].
  pose proof (wrapText_length_bounds (measure UthmanicHafs65)
                (950 * 0.9)%float text) as Ha.
  pose proof (wrapText_length_bounds (measure ClashDisplay32)
                (950 * 0.9)%float text) as Ht.
  change (totalHeight (layoutArabicText measure text))
    with (Z.of_nat (length (wrapText (measure UthmanicHafs65)
                              (950 * 0.9)%float text)) * 100).
  change (totalHeight (layoutTranslationText measure text))
    with (Z.of_nat (length (wrapText (measure ClashDisplay32)
                              (950 * 0.9)%float text)) * 45).
  lia.
Qed.

(** ** The graph as a chain over the command's inputs *)

Section ChainFacts.

Variable paths : list string.
Variable ds : list float.
Variable tH aH : list Z.

Lemma graph_parts {V} (ayat : list V) i :
  (i < length ayat)%nat →
  let g := (filterGraph paths ds tH aH ayat).1 in
  ∃ ty ay a b,
    g !! (4 + 2 * i)%nat
    = Some (TextOverlay (baseLabel i) (i + length paths + 4) ty a b (trans i))
    ∧ g !! (4 + 2 * i + 1)%nat
      = Some (TextOverlay (trans i) (i + 4) ay a b (arabic i))
    ∧ ty = Js.zlift (λ h, watermarkY - (h + 100) - 50) (tH !! i)
    ∧ ay = match ty, aH !! i with
           | Some y, Some h => Some (y - (h + 24))
           | _, _ => None
           end.
Proof.
  intros Hi g. subst g.
  destruct (graph_verse paths ds tH aH ayat i Hi) as [H0 H1].
  unfold translationOverlay, arabicOverlay in *. rewrite H0, H1.
  unfold overlayStep. simpl. by eexists _, _, _, _.
Qed.

Lemma graph_watermark {V} (ayat : list V) :
  (filterGraph paths ds tH aH ayat).1 !! 3%nat = Some (WatermarkOverlay watermarkY).
Proof.
  rewrite <- (lookup_take_lt _ 4 3) by lia. by rewrite graph_fixed.
Qed.

End ChainFacts.

(** X4.  The overlays form one chain: from the watermark overlay on, every
    entry of the graph takes as its base layer the output of the entry
    just before it, and the label mapped into the output file is the
    output of the last entry; this holds for any number of verses and any
    layer lists. *)
Theorem overlays_form_one_chain (paths : list string) (ds : list float)
    (tH aH : list Z) (ayat : list Ayah) :
  let g := filterGraph paths ds tH aH ayat in
  (∀ k p q, (3 ≤ k)%nat → g.1 !! k = Some p → g.1 !! S k = Some q →
            partBase q = partOut p ∧ is_Some (partOut p))
  ∧ (last g.1 ≫= partOut) = Some g.2.
Proof.
  cbv zeta. split.
  - intros k p q Hk Hp Hq.
    assert (S k < 4 + 2 * length ayat)%nat as Hlen.
    { rewrite <- (graph_length paths ds tH aH ayat). by eapply lookup_lt_Some. }
    destruct (decide (k = 3%nat)) as [->|Hk3].
    + rewrite graph_watermark in Hp. injection Hp as <-.
      destruct (graph_parts paths ds tH aH ayat 0%nat ltac:(lia))
        as (ty & ay & a & b & H0 & _).
      simpl in H0. rewrite H0 in Hq. injection Hq as <-. by split; [|eexists].
    + destruct (Nat.Even_or_Odd (k - 4)) as [[i Hi] | [i Hi]].
      * destruct (graph_parts paths ds tH aH ayat i ltac:(lia))
          as (ty & ay & a & b & H0 & H1 & _).
        replace (4 + 2 * i)%nat with k in H0 by lia.
        replace (4 + 2 * i + 1)%nat with (S k) in H1 by lia.
        rewrite H0 in Hp. rewrite H1 in Hq.
        injection Hp as <-. injection Hq as <-. by split; [|eexists].
      * destruct (graph_parts paths ds tH aH ayat i ltac:(lia))
          as (ty & ay & a & b & _ & H1 & _).
        destruct (graph_parts paths ds tH aH ayat (S i) ltac:(lia))
          as (ty' & ay' & a' & b' & H0 & _).
        replace (4 + 2 * i + 1)%nat with k in H1 by lia.
        replace (4 + 2 * S i)%nat with (S k) in H0 by lia.
        rewrite H1 in Hp. rewrite H0 in Hq.
        injection Hp as <-. injection Hq as <-. by split; [|eexists].
  - rewrite last_lookup, graph_length, graph_label.
    destruct (length ayat) as [|n] eqn:Hn.
    + simpl. by rewrite graph_watermark.
    + destruct (graph_parts paths ds tH aH ayat n ltac:(lia))
        as (ty & ay & a & b & _ & H1 & _).
      replace (Nat.pred (4 + 2 * S n)) with (4 + 2 * n + 1)%nat by lia.
      by rewrite H1.
Qed.

Lemma overlays_form_one_chain_witness :
  partBase (TextOverlay (arabic 0) 7 (Some 1425) (Some 2%float) 5%float (trans 1))
  = partOut (TextOverlay (trans 0) 4 (Some 1301) (Some 0%float) 2%float (arabic 0))
  ∧ is_Some (partOut (TextOverlay (trans 0) 4 (Some 1301) (Some 0%float)
                        2%float (arabic 0))).
Proof.
  destruct (overlays_form_one_chain ["a0.png"; "a1.png"] [2%float; 3%float]
              [45; 45] [100; 100] sampleAyat) as [H _].
  apply (H 5%nat); [lia | reflexivity | reflexivity].
Defined.

(** X5.  The input numbers written into the graph match the order in
    which the images are given to ffmpeg: when there is one primary-text
    image per verse, the primary-text overlay of verse [i] reads the input
    that is the [i]-th primary-text image and its translation overlay
    reads the input that is the [i]-th translation image. *)
Theorem overlay_inputs_match_images (E : Env) (videoPath audioPath : string)
    (arabicImagePaths translationImagePaths : list string) (ayat : list Ayah)
    (ds : list float) (tH aH : list Z) (tempDir : string) (i : nat) :
  length arabicImagePaths = length ayat →
  (i < length ayat)%nat →
  let command :=
    overlayCommand E videoPath audioPath arabicImagePaths translationImagePaths
      ayat ds tH aH tempDir in
  ∃ tr ar kt ka,
    translationOverlay (cmdFilter command) i = Some tr
    ∧ arabicOverlay (cmdFilter command) i = Some ar
    ∧ partInput tr = Some kt ∧ partInput ar = Some ka
    ∧ cmdInputs command !! kt = translationImagePaths !! i
    ∧ cmdInputs command !! ka = arabicImagePaths !! i.
Proof.
  intros Hlen Hi command.
  destruct (overlayCommand_filter E videoPath audioPath arabicImagePaths
              translationImagePaths ayat ds tH aH tempDir) as [Hf _].
  fold command in Hf. apply (f_equal fst) in Hf. simpl in Hf.
  destruct (graph_parts arabicImagePaths ds tH aH ayat i Hi)
    as (ty & ay & a & b & H0 & H1 & _).
  unfold translationOverlay, arabicOverlay. rewrite Hf, H0, H1.
  eexists _, _, _, _. split; [done|]. split; [done|].
  split; [done|]. split; [done|].
  assert (∃ watermarkPath bgImagePath,
            cmdInputs command
            = [videoPath; audioPath; watermarkPath; bgImagePath]
              ++ arabicImagePaths ++ translationImagePaths)
    as (watermarkPath & bgImagePath & ->).
  { subst command. unfold overlayCommand.
    destruct (filterGraph _ _ _ _ _). by eexists _, _. }
  split.
  - rewrite lookup_app_r by (simpl; lia).
    rewrite lookup_app_r by (simpl; lia).
    f_equal. simpl. lia.
  - rewrite lookup_app_r by (simpl; lia).
    rewrite lookup_app_l by (simpl; lia).
    f_equal. simpl. lia.
Qed.

Lemma overlay_inputs_match_images_witness :
  ∃ tr ar kt ka,
    translationOverlay
      (cmdFilter (overlayCommand quietEnv "bg.mp4" "audio.mp3"
                    ["a0.png"; "a1.png"] ["t0.png"; "t1.png"] sampleAyat
                    [2%float; 3%float] [45; 45] [100; 100] "/tmp/r")) 1%nat = Some tr
    ∧ arabicOverlay
        (cmdFilter (overlayCommand quietEnv "bg.mp4" "audio.mp3"
                      ["a0.png"; "a1.png"] ["t0.png"; "t1.png"] sampleAyat
                      [2%float; 3%float] [45; 45] [100; 100] "/tmp/r")) 1%nat = Some ar
    ∧ partInput tr = Some kt ∧ partInput ar = Some ka
    ∧ cmdInputs (overlayCommand quietEnv "bg.mp4" "audio.mp3"
                   ["a0.png"; "a1.png"] ["t0.png"; "t1.png"] sampleAyat
                   [2%float; 3%float] [45; 45] [100; 100] "/tmp/r") !! kt
      = ["t0.png"; "t1.png"] !! 1%nat
    ∧ cmdInputs (overlayCommand quietEnv "bg.mp4" "audio.mp3"
                   ["a0.png"; "a1.png"] ["t0.png"; "t1.png"] sampleAyat
                   [2%float; 3%float] [45; 45] [100; 100] "/tmp/r") !! ka
      = ["a0.png"; "a1.png"] !! 1%nat.
Proof.
  apply (overlay_inputs_match_images quietEnv "bg.mp4" "audio.mp3"
           ["a0.png"; "a1.png"] ["t0.png"; "t1.png"] sampleAyat
           [2%float; 3%float] [45; 45] [100; 100] "/tmp/r" 1%nat);
    [reflexivity | simpl; lia].
Defined.

(** ** Where the text layers are placed *)

Lemma layout_heights (measure : Font → string → float) (text : string) :
  100 ≤ totalHeight (layoutArabicText measure text)
  ∧ canvasHeight (layoutArabicText measure text)
    = totalHeight (layoutArabicText measure text) + 100
  ∧ 45 ≤ totalHeight (layoutTranslationText measure text)
  ∧ canvasHeight (layoutTranslationText measure text)
    = totalHeight (layoutTranslationText measure text) + 100.
Proof.
  pose proof (wrapText_length_bounds (measure UthmanicHafs65)
                (950 * 0.9)%float text) as Ha.
  pose proof (wrapText_length_bounds (measure ClashDisplay32)
                (950 * 0.9)%float text) as Ht.
  change (totalHeight (layoutArabicText measure text))
    with (Z.of_nat (length (wrapText (measure UthmanicHafs65)
                              (950 * 0.9)%float text)) * 100).
  change (totalHeight (layoutTranslationText measure text))
    with (Z.of_nat (length (wrapText (measure ClashDisplay32)
                              (950 * 0.9)%float text)) * 45).
  split; [lia|]. split; [done|]. split; [lia|done].
Qed.

(** X6.  With the heights that the rasterizers report for the verses (the
    lists [processVideoRequest] passes on), every verse gets both
    positions, and they do not depend on the timeline: the translation
    image, whose canvas is its reported height plus 100, always ends at
    y = 1570, 50 pixels above the watermark position, and the primary-text
    image always ends 76 pixels below the top of its translation image;
    so the translation is placed at y <= 1425 and the primary text at
    y <= 1301.  Nothing keeps the positions from being negative for long
    texts. *)
Theorem text_layers_stack_above_watermark (measure : Font → string → float)
    (paths : list string) (ds : list float) (ayat : list Ayah)
    (i : nat) (verse : Ayah) :
  ayat !! i = Some verse →
  let tH := (λ a, totalHeight (layoutTranslationText measure (translation a)))
            <$> ayat in
  let aH := (λ a, totalHeight (layoutArabicText measure (aya a))) <$> ayat in
  let g := (filterGraph paths ds tH aH ayat).1 in
  ∃ tr ar ty ay,
    translationOverlay g i = Some tr ∧ arabicOverlay g i = Some ar
    ∧ partY tr = Some ty ∧ partY ar = Some ay
    ∧ ty + canvasHeight (layoutTranslationText measure (translation verse))
      = watermarkY - 50
    ∧ ay + canvasHeight (layoutArabicText measure (aya verse)) = ty + 76
    ∧ ty ≤ 1425 ∧ ay ≤ 1301.
Proof.
  intros Hv tH aH g.
  assert (i < length ayat)%nat as Hi by (by eapply lookup_lt_Some).
  destruct (graph_parts paths ds tH aH ayat i Hi)
    as (ty & ay & a & b & H0 & H1 & Hty & Hay).
  unfold translationOverlay, arabicOverlay. subst g. rewrite H0, H1.
  subst tH aH. rewrite list_lookup_fmap, Hv in Hty, Hay.
  cbn -[totalHeight layoutTranslationText layoutArabicText Z.sub Z.add]
    in Hty, Hay.
  subst ty ay.
  destruct (layout_heights measure (aya verse)) as (Ha & Hac & _).
  destruct (layout_heights measure (translation verse)) as (_ & _ & Ht & Htc).
  eexists _, _, _, _. split; [done|]. split; [done|].
  split; [done|]. split; [done|].
  rewrite Hac, Htc. unfold watermarkY. lia.
Qed.

Lemma text_layers_stack_above_watermark_witness :
  ∃ tr ar ty ay,
    translationOverlay
      (filterGraph ["a0.png"; "a1.png"] [2%float; 3%float]
         ((λ a, totalHeight (layoutTranslationText (λ _, stepMeasure)
                               (translation a))) <$> sampleAyat)
         ((λ a, totalHeight (layoutArabicText (λ _, stepMeasure) (aya a)))
          <$> sampleAyat) sampleAyat).1 1%nat = Some tr
    ∧ arabicOverlay
        (filterGraph ["a0.png"; "a1.png"] [2%float; 3%float]
           ((λ a, totalHeight (layoutTranslationText (λ _, stepMeasure)
                                 (translation a))) <$> sampleAyat)
           ((λ a, totalHeight (layoutArabicText (λ _, stepMeasure) (aya a)))
            <$> sampleAyat) sampleAyat).1 1%nat = Some ar
    ∧ partY tr = Some ty ∧ partY ar = Some ay
    ∧ ty + canvasHeight (layoutTranslationText (λ _, stepMeasure)
                           (translation sampleVerse1)) = watermarkY - 50
    ∧ ay + canvasHeight (layoutArabicText (λ _, stepMeasure) (aya sampleVerse1))
      = ty + 76
    ∧ ty ≤ 1425 ∧ ay ≤ 1301.
Proof.
  apply (text_layers_stack_above_watermark (λ _, stepMeasure)
           ["a0.png"; "a1.png"] [2%float; 3%float] sampleAyat 1%nat sampleVerse1).
  reflexivity.
Defined.

(** ** What a download returns *)

Section DownloadResults.

Context (E : Env).




End DownloadResults.

Lemma string_app_inj_r (a b c : string) : a +:+ c = b +:+ c → a = b.
Proof.
  intros H.
  assert (String.length a = String.length b) as Hlen.
  { apply (f_equal String.length) in H. rewrite !StringFacts.length_app in H. lia. }
  revert b H Hlen. induction a as [|x a IH]; intros [|y b] H Hlen;
    simpl in Hlen; try done.
  rewrite !StringFacts.app_cons in H. injection H as -> H.
  f_equal. apply IH; [done|lia].
Qed.

Lemma videoPathOf_inj tempDir i j :
  videoPathOf tempDir i = videoPathOf tempDir j → i = j.
Proof.
  unfold videoPathOf.
  rewrite !(PathFacts.path_join_file _ _ (PathFacts.fileName_background _)).
  intros H. do 2 apply String.app_inj in H.
  apply string_app_inj_r in H. by apply pretty_nat_inj in H.
Qed.

Lemma videoPaths_from index tempDir remaining x :
  x ∈ mjoin (imap (λ k, videoPathsFrom tempDir (index + k)) remaining) →
  ∃ j, (index ≤ j)%nat ∧ x = videoPathOf tempDir j.
Proof.
  revert index. induction remaining as [|u rest IH]; intros index; [by intros ?%elem_of_nil|].
  rewrite imap_shift. change (mjoin (?a :: ?l)) with (a ++ mjoin l).
  intros [Hx | Hx]%elem_of_app.
  - unfold videoPathsFrom in Hx. destruct (Js.startsWith u pixabayPrefix).
    + apply list_elem_of_singleton in Hx. by exists index.
    + by apply elem_of_nil in Hx.
  - apply IH in Hx as (j & Hj & ->). exists j. split; [lia|done].
Qed.

Lemma videoPaths_NoDup index tempDir remaining :
  NoDup (mjoin (imap (λ k, videoPathsFrom tempDir (index + k)) remaining)).
Proof.
  revert index. induction remaining as [|u rest IH]; intros index;
    [apply NoDup_nil_2|].
  rewrite imap_shift. change (mjoin (?a :: ?l)) with (a ++ mjoin l).
  unfold videoPathsFrom at 1.
  destruct (Js.startsWith u pixabayPrefix); [|exact (IH (S index))].
  apply NoDup_cons. split; [|exact (IH (S index))].
  intros (j & Hj & Heq)%(videoPaths_from (S index)).
  apply videoPathOf_inj in Heq. lia.
Qed.



(** X8.  The background files of one request never overwrite each other:
    the video paths that [downloadFiles] returns are pairwise distinct,
    because each carries the position of its link in [background.links]. *)
Theorem background_paths_distinct (E : Env)
    (recitation_files : list RecitationFile) (background : Background)
    (ayat : list Ayah) (tempDir : string) (w : World) (d : Downloaded)
    (w' : World) :
  downloadFiles E recitation_files background ayat tempDir w = (Ok d, w') →
  NoDup (videoPaths d).
Proof.
  intros Hrun.
  destruct (downloadFiles_trace E recitation_files background ayat tempDir w)
    as (n & m & evsA & evsV & _ & _ & _ & Hok).
  rewrite Hrun in Hok. destruct (Hok d eq_refl) as (_ & _ & -> & _).
  apply (videoPaths_NoDup 0).
Qed.

Lemma background_paths_distinct_witness :
  ∃ d w',
    downloadFiles quietEnv []
      {| links := mixedLinks ++ ["https://cdn.pixabay.com/video/1.mp4"] |} []
      "/tmp/r" emptyWorld = (Ok d, w')
    ∧ videoPaths d = ["/tmp/r/background_1.mp4"; "/tmp/r/background_3.mp4"]
    ∧ NoDup (videoPaths d).
Proof.
  eexists _, _. split; [reflexivity|]. split; [reflexivity|].
  eapply (background_paths_distinct quietEnv []
            {| links := mixedLinks ++ ["https://cdn.pixabay.com/video/1.mp4"] |}
            [] "/tmp/r" emptyWorld).
  reflexivity.
Defined.

(** ** The course of a request *)

Section Prepares.

Lemma prepOnly_nil : prepOnly [].
Proof. split; constructor. Qed.

Lemma prepOnly_app evs evs' : prepOnly evs → prepOnly evs' → prepOnly (evs ++ evs').
Proof.
  intros [H1 H2] [H1' H2']. split; [by apply Forall_app|].
  rewrite fetchedUrls_app. by apply Forall_app.
Qed.

Lemma prepOnly_local e :
  isPrep e → fetchedUrls [e] = [] → prepOnly [e].
Proof.
  intros He Hf. split; [by apply Forall_singleton|]. rewrite Hf. constructor.
Qed.

Lemma prepOnly_fetch u : allowedUrl u → prepOnly [EvFetch u].
Proof.
  intros Hu. split; [by apply Forall_singleton|]. by apply Forall_singleton.
Qed.

Context {A B : Type}.

Lemma prepares_ret (a : A) : prepares (mret a).
Proof. intros w. exists []. split; [by rewrite app_nil_r|apply prepOnly_nil]. Qed.

Lemma prepares_throw message : prepares (throw (A := A) message).
Proof. intros w. exists []. split; [by rewrite app_nil_r|apply prepOnly_nil]. Qed.

Lemma prepares_bind (m : M A) (k : A → M B) :
  prepares m → (∀ a, prepares (k a)) → prepares (m ≫= k).
Proof.
  intros Hm Hk w. rewrite run_bind.
  destruct (Hm w) as (evs & Hh & Hp).
  destruct (m w) as [[a|e] w1]; simpl in *.
  - destruct (Hk a w1) as (evs' & Hh' & Hp').
    exists (evs ++ evs'). split; [by rewrite Hh', Hh, app_assoc|].
    by apply prepOnly_app.
  - by exists evs.
Qed.

Lemma prepares_tryCatch (m : M A) (handler : string → M A) :
  prepares m → (∀ e, prepares (handler e)) → prepares (tryCatch m handler).
Proof.
  intros Hm Hk w. unfold tryCatch.
  destruct (Hm w) as (evs & Hh & Hp).
  destruct (m w) as [[a|e] w1]; simpl in *.
  - by exists evs.
  - destruct (Hk e w1) as (evs' & Hh' & Hp').
    exists (evs ++ evs'). split; [by rewrite Hh', Hh, app_assoc|].
    by apply prepOnly_app.
Qed.

End Prepares.

Section PreparesCode.

Context (E : Env).

Lemma prepares_emit e : prepOnly [e] → prepares (emit e).
Proof. intros He w. by exists [e]. Qed.

Lemma prepares_getHistory : prepares getHistory.
Proof. intros w. exists []. split; [by rewrite app_nil_r|apply prepOnly_nil]. Qed.

Lemma prepares_throwIf cond message : prepares (throwIf cond message).
Proof.
  intros w. exists []. unfold throwIf.
  destruct cond; (split; [by rewrite app_nil_r|apply prepOnly_nil]).
Qed.

Lemma prepares_writeFileSync path : prepares (writeFileSync path).
Proof. apply prepares_emit. by apply prepOnly_local. Qed.

Lemma startsWith_app (p s : string) : Js.startsWith (p +:+ s) p = true.
Proof.
  induction p as [|c p IH]; [by destruct s|].
  rewrite StringFacts.app_cons. simpl. by rewrite Ascii.eqb_refl, IH.
Qed.

Lemma prepares_fetch u : allowedUrl u → prepares (fetch E u).
Proof.
  intros Hu. unfold fetch.
  apply prepares_bind; [apply prepares_getHistory|]. intros h.
  apply prepares_bind; [by apply prepares_emit, prepOnly_fetch|]. intros _.
  destruct (netFetch E h u); [apply prepares_throw|apply prepares_ret].
Qed.

Lemma prepares_getAudioDuration path : prepares (getAudioDuration E path).
Proof.
  unfold getAudioDuration.
  apply prepares_bind; [apply prepares_getHistory|]. intros h.
  apply prepares_bind; [by apply prepares_emit, prepOnly_local|]. intros _.
  destruct (ffprobe E h path); [apply prepares_throw|apply prepares_ret].
Qed.

Lemma prepares_tryAudio u path key : allowedUrl u → prepares (tryAudio E u path key).
Proof.
  intros Hu. unfold tryAudio.
  apply prepares_tryCatch; [|intros; apply prepares_throw].
  apply prepares_bind; [by apply prepares_fetch|]. intros ok.
  apply prepares_bind; [apply prepares_throwIf|]. intros _.
  apply prepares_bind; [apply prepares_writeFileSync|]. intros _.
  apply prepares_getAudioDuration.
Qed.

Lemma prepares_tryVideo u path : allowedUrl u → prepares (tryVideo E u path).
Proof.
  intros Hu. unfold tryVideo.
  apply prepares_tryCatch; [|intros; apply prepares_throw].
  apply prepares_bind; [by apply prepares_fetch|]. intros ok.
  apply prepares_bind; [apply prepares_throwIf|]. intros _.
  apply prepares_writeFileSync.
Qed.

Lemma prepares_downloadAudio remaining i ayat tempDir paths durations :
  prepares (downloadAudio E remaining i ayat tempDir paths durations).
Proof.
  revert i paths durations.
  induction remaining as [|rf rest IH]; intros i paths durations;
    cbn [downloadAudio]; [apply prepares_ret|].
  destruct (audio_files rf !! 0%nat) as [first|]; [|apply prepares_throw].
  apply prepares_bind; [|intros d; apply IH].
  apply prepares_tryAudio. left. apply startsWith_app.
Qed.

Lemma prepares_downloadVideos remaining index tempDir paths :
  prepares (downloadVideos E remaining index tempDir paths).
Proof.
  revert index paths.
  induction remaining as [|u rest IH]; intros index paths;
    cbn [downloadVideos]; [apply prepares_ret|].
  destruct (Js.startsWith u pixabayPrefix) eqn:Hel; [|apply IH].
  apply prepares_bind; [|intros _; apply IH].
  apply prepares_tryVideo. by right.
Qed.

Lemma prepares_downloadFiles recitation_files background ayat tempDir :
  prepares (downloadFiles E recitation_files background ayat tempDir).
Proof.
  unfold downloadFiles.
  apply prepares_bind; [apply prepares_downloadAudio|]. intros [aps ads].
  apply prepares_bind; [apply prepares_downloadVideos|]. intros vps.
  destruct (bool_decide _); [apply prepares_throw|apply prepares_ret].
Qed.

Lemma prepares_concatenateMedia filePaths type tempDir :
  prepares (concatenateMedia E filePaths type tempDir).
Proof.
  destruct filePaths as [|p [|q rest]];
    [apply prepares_throw | apply prepares_ret |].
  unfold concatenateMedia.
  apply prepares_bind; [apply prepares_writeFileSync|]. intros _.
  apply prepares_bind; [apply prepares_getHistory|]. intros h.
  apply prepares_bind; [by apply prepares_emit, prepOnly_local|]. intros _.
  destruct (ffmpegConcat E h _ _); [apply prepares_throw|apply prepares_ret].
Qed.

Lemma prepares_generateArabicLoop remaining tempDir paths heights :
  prepares (generateArabicLoop E remaining tempDir paths heights).
Proof.
  revert paths heights.
  induction remaining as [|ayah rest IH]; intros paths heights;
    cbn [generateArabicLoop]; [apply prepares_ret|].
  apply prepares_bind; [|intros h; apply IH].
  unfold renderArabicTextImage.
  apply prepares_bind; [apply prepares_writeFileSync|intros _; apply prepares_ret].
Qed.

Lemma prepares_generateTranslationLoop remaining tempDir paths heights :
  prepares (generateTranslationLoop E remaining tempDir paths heights).
Proof.
  revert paths heights.
  induction remaining as [|ayah rest IH]; intros paths heights;
    cbn [generateTranslationLoop]; [apply prepares_ret|].
  apply prepares_bind; [|intros h; apply IH].
  unfold renderTranslationTextImage.
  apply prepares_bind; [apply prepares_writeFileSync|intros _; apply prepares_ret].
Qed.

Lemma prepares_ensureDir path :
  prepares (existsSync path ≫= λ present, when (negb present) (mkdirSync path)).
Proof.
  intros w. rewrite run_bind. unfold existsSync, when, mkdirSync, ret.
  destruct (bool_decide _); simpl.
  - exists []. split; [by rewrite app_nil_r|apply prepOnly_nil].
  - exists [EvMkdir path]. split; [done|]. by apply prepOnly_local.
Qed.

Lemma uploadVideoToR2_run (w : World) :
  uploadVideoToR2 E (finalOutput E) (shortId E) w
  = (match s3Send E (history w) (finalKey E) with
     | Some message => Throw message
     | None =>
         Ok {| uploadUrl := publicUrlOf E (finalKey E);
               uploadPresignedUrl :=
                 {| signedBase := publicUrlOf E (finalKey E);
                    signedExpires :=
                      (dateNow E (history w
                                  ++ [EvUpload (finalKey E) (finalOutput E)])
                       + 7200 * 1000)%float |} |}
     end,
     {| dirs := dirs w;
        history := history w ++ [EvUpload (finalKey E) (finalOutput E)] |}).
Proof.
  unfold uploadVideoToR2, finalOutput. rewrite PathFacts.basename_final.
  unfold uploadFileToR2. run.
  change ("videos/" +:+ shortId E +:+ "/" +:+ "final_output.mp4")
    with (finalKey E).
  by destruct (s3Send E (history w) (finalKey E)).
Qed.

End PreparesCode.

Section RequestTrace.

Context (E : Env).

Lemma overlayCommand_output v a ps tps ayat ds tH aH tempDir :
  cmdOutput (overlayCommand E v a ps tps ayat ds tH aH tempDir)
  = Js.replace_backslashes (Js.path_join tempDir "final_output.mp4").
Proof. unfold overlayCommand. by destruct (filterGraph _ _ _ _ _). Qed.

Lemma withTempDir_history w :
  ∃ events, history (withTempDir E w) = history w ++ events ∧ prepOnly events.
Proof.
  unfold withTempDir. destruct (bool_decide _); simpl.
  - exists []. split; [by rewrite app_nil_r|apply prepOnly_nil].
  - eexists. split; [done|]. by apply prepOnly_local.
Qed.

(** A request prepares (creates its directory, downloads, concatenates,
    rasterizes), then encodes once, then uploads once, then removes its
    directory; it stops at the first step that fails. *)
Lemma processVideoRequest_trace recitation_files background ayat w r w' :
  processVideoRequest E recitation_files background ayat w = (r, w') →
  ∃ pre post,
    history w' = history w ++ pre ++ post
    ∧ prepOnly pre
    ∧ ((post = [] ∧ ∃ e, r = Throw e)
       ∨ (∃ cmd e,
            post = [EvEncode cmd] ∧ r = Throw e
            ∧ cmdOutput cmd = finalOutput E
            ∧ ffmpegEncode E (history w ++ pre) cmd = Some e)
       ∨ (∃ cmd e,
            post = [EvEncode cmd; EvUpload (finalKey E) (finalOutput E)]
            ∧ r = Throw e
            ∧ cmdOutput cmd = finalOutput E
            ∧ ffmpegEncode E (history w ++ pre) cmd = None
            ∧ s3Send E (history w ++ pre ++ [EvEncode cmd]) (finalKey E) = Some e)
       ∨ (∃ cmd presigned,
            post = [EvEncode cmd; EvUpload (finalKey E) (finalOutput E)]
                   ++ (if debugMode E then [] else [EvRm (requestTempDir E)])
            ∧ r = Ok {| output := finalOutput E;
                        videoUrl := publicUrlOf E (finalKey E);
                        presignedUrl := presigned;
                        videoId := shortId E |}
            ∧ presigned
              = {| signedBase := publicUrlOf E (finalKey E);
                   signedExpires :=
                     (dateNow E (history w ++ pre
                                 ++ [EvEncode cmd;
                                     EvUpload (finalKey E) (finalOutput E)])
                      + 7200 * 1000)%float |}
            ∧ cmdOutput cmd = finalOutput E
            ∧ ffmpegEncode E (history w ++ pre) cmd = None
            ∧ s3Send E (history w ++ pre ++ [EvEncode cmd]) (finalKey E) = None)).
Proof.
  unfold processVideoRequest, tryCatch. rewrite run_bind.
  unfold existsSync at 1. cbv beta iota. rewrite run_bind.
  assert ((when (negb (bool_decide (requestTempDir E ∈ dirs w)))
             (mkdirSync (requestTempDir E))) w = (Ok tt, withTempDir E w)) as ->.
  { unfold withTempDir. by destruct (bool_decide _). }
  destruct (withTempDir_history w) as (ev0 & Hh0 & Hp0).
  revert Hh0. generalize (withTempDir E w). intros w1 Hh0.
  assert (∀ (pre : list Event) (wk : World) (e : string),
            history wk = history w ++ pre → prepOnly pre →
            (Throw e, wk) = (r, w') →
            ∃ pre post, history w' = history w ++ pre ++ post ∧ prepOnly pre
              ∧ ((post = [] ∧ ∃ e, r = Throw e) ∨ False)) as Hstop.
  { intros pre wk e Hh Hp [= <- <-]. exists pre, [].
    rewrite app_nil_r. split; [done|]. split; [done|]. left. by eauto. }
  assert (∀ X (m : M X) wk pre,
            prepares m → history wk = history w ++ pre → prepOnly pre →
            ∃ pre', history (m wk).2 = history w ++ pre' ∧ prepOnly pre') as Hnext.
  { intros X m wk pre Hm Hh Hp. destruct (Hm wk) as (evs & Hh' & Hp').
    exists (pre ++ evs). split; [by rewrite Hh', Hh, app_assoc|].
    by apply prepOnly_app. }
  rewrite run_bind.
  destruct (Hnext _ _ w1 ev0
              (prepares_downloadFiles E recitation_files background ayat
                 (requestTempDir E)) Hh0 Hp0) as (ev1 & Hh1 & Hp1).
  destruct (downloadFiles _ _ _ _ _ w1) as [[d|e] w2]; simpl in Hh1;
    [|intros Hr; destruct (Hstop _ _ _ Hh1 Hp1 Hr) as (? & ? & ? & ? & [?|[]]);
      eauto 10].
  rewrite run_bind.
  destruct (Hnext _ _ w2 ev1
              (prepares_concatenateMedia E (videoPaths d) video (requestTempDir E))
              Hh1 Hp1) as (ev2 & Hh2 & Hp2).
  destruct (concatenateMedia _ _ video _ w2) as [[fv|e] w3]; simpl in Hh2;
    [|intros Hr; destruct (Hstop _ _ _ Hh2 Hp2 Hr) as (? & ? & ? & ? & [?|[]]);
      eauto 10].
  rewrite run_bind.
  destruct (Hnext _ _ w3 ev2
              (prepares_concatenateMedia E (audioPaths d) audio (requestTempDir E))
              Hh2 Hp2) as (ev3 & Hh3 & Hp3).
  destruct (concatenateMedia _ _ audio _ w3) as [[fa|e] w4]; simpl in Hh3;
    [|intros Hr; destruct (Hstop _ _ _ Hh3 Hp3 Hr) as (? & ? & ? & ? & [?|[]]);
      eauto 10].
  rewrite run_bind.
  destruct (Hnext _ _ w4 ev3
              (prepares_generateArabicLoop E ayat (requestTempDir E) [] [])
              Hh3 Hp3) as (ev4 & Hh4 & Hp4).
  unfold generateArabicImages at 1.
  destruct (generateArabicLoop _ _ _ _ _ w4) as [[[aps ahs]|e] w5]; simpl in Hh4;
    [|intros Hr; destruct (Hstop _ _ _ Hh4 Hp4 Hr) as (? & ? & ? & ? & [?|[]]);
      eauto 10].
  rewrite run_bind.
  destruct (Hnext _ _ w5 ev4
              (prepares_generateTranslationLoop E ayat (requestTempDir E) [] [])
              Hh4 Hp4) as (ev5 & Hh5 & Hp5).
  unfold generateTranslationImages at 1.
  destruct (generateTranslationLoop _ _ _ _ _ w5) as [[[tps ths]|e] w6];
    simpl in Hh5;
    [|intros Hr; destruct (Hstop _ _ _ Hh5 Hp5 Hr) as (? & ? & ? & ? & [?|[]]);
      eauto 10].
  rewrite run_bind, buildVideoWithOverlays_run.
  set (cmd := overlayCommand E fv fa aps tps ayat (audioDurations d) ths ahs
                (requestTempDir E)).
  assert (cmdOutput cmd = finalOutput E) as Hout
    by apply overlayCommand_output.
  rewrite Hh5.
  destruct (ffmpegEncode E (history w ++ ev5) cmd) as [e|] eqn:Henc.
  { intros [= <- <-]. exists ev5, [EvEncode cmd]. simpl.
    split; [by rewrite <- app_assoc|]. split; [done|]. right. left. by eauto 10. }
  rewrite run_bind, Hout, uploadVideoToR2_run. simpl.
  rewrite <- (app_assoc (history w) ev5 [EvEncode cmd]).
  destruct (s3Send E _ (finalKey E)) as [e|] eqn:Hs3.
  { intros [= <- <-]. exists ev5, [EvEncode cmd; EvUpload (finalKey E) (finalOutput E)].
    simpl. split; [by rewrite <- !app_assoc|]. split; [done|].
    right. right. left. by eauto 10. }
  rewrite run_bind. unfold when, rmSync, ret. intros Hr.
  exists ev5. eexists. split; [|split; [done|]].
  2:{ right. right. right. exists cmd. eexists.
      split; [reflexivity|]. split; [|split; [|by eauto]].
      - destruct (debugMode E); simpl in Hr; injection Hr as <- _; reflexivity.
      - by rewrite <- !app_assoc. }
  destruct (debugMode E); simpl in Hr; injection Hr as _ <-; simpl;
    by rewrite <- !app_assoc.
Qed.

End RequestTrace.

Lemma prep_has_no_output (events : list Event) :
  Forall isPrep events →
  encoded events = [] ∧ uploaded events = [] ∧ removed events = [].
Proof.
  induction 1 as [|e events He _ IH]; [done|].
  destruct IH as (IH1 & IH2 & IH3). by destruct e.
Qed.

(** X9.  Every URL that a request passes to [fetch] starts with
    https://verses.quran.com/ or with https://cdn.pixabay.com/, whatever
    the payload says and however the request ends.  This is about the
    URLs the code asks for: [fetch] follows redirects, and the upload goes
    to the R2 endpoint through the S3 client, not through [fetch]. *)
Theorem fetched_urls_have_known_prefix (E : Env)
    (recitation_files : list RecitationFile) (background : Background)
    (ayat : list Ayah) (w : World) (r : Result VideoResult) (w' : World) :
  processVideoRequest E recitation_files background ayat w = (r, w') →
  ∃ events,
    history w' = history w ++ events
    ∧ ∀ u, u ∈ fetchedUrls events →
           Js.startsWith u "https://verses.quran.com/" = true
           ∨ Js.startsWith u "https://cdn.pixabay.com/" = true.
Proof.
  intros Hrun.
  destruct (processVideoRequest_trace E _ _ _ _ _ _ Hrun)
    as (pre & post & Hh & [_ Hpre] & Hpost).
  exists (pre ++ post). split; [done|].
  assert (fetchedUrls post = []) as Hnone.
  { destruct Hpost as [[-> _] | [(c & e & -> & _) | [(c & e & -> & _)
                      | (c & p & -> & _)]]]; try done.
    by destruct (debugMode E). }
  rewrite fetchedUrls_app, Hnone, app_nil_r.
  intros u Hu. rewrite Forall_forall in Hpre. exact (Hpre u Hu).
Qed.

Lemma fetched_urls_have_known_prefix_witness :
  ∃ events,
    history (processVideoRequest quietEnv [sampleRecitation]
               {| links := mixedLinks |} sampleAyat emptyWorld).2
    = history emptyWorld ++ events
    ∧ ∀ u, u ∈ fetchedUrls events →
           Js.startsWith u "https://verses.quran.com/" = true
           ∨ Js.startsWith u "https://cdn.pixabay.com/" = true.
Proof.
  eapply (fetched_urls_have_known_prefix quietEnv [sampleRecitation]
            {| links := mixedLinks |} sampleAyat emptyWorld).
  apply surjective_pairing.
Defined.

(** X10.  A request encodes at most once and uploads at most once.
    Nothing is uploaded unless the encode that ran succeeded: the upload
    comes after the request's encode event, ffmpeg, asked in the history
    as it was just before that event, reported no error, and what is
    uploaded is the file ffmpeg was told to write, under the key
    videos/<request id>/final_output.mp4.  A request that returns has
    uploaded; and the only directory a request ever removes is its own
    temporary directory, as the last thing it does, after the upload. *)
Theorem upload_follows_successful_encode (E : Env)
    (recitation_files : list RecitationFile) (background : Background)
    (ayat : list Ayah) (w : World) (r : Result VideoResult) (w' : World) :
  processVideoRequest E recitation_files background ayat w = (r, w') →
  ∃ events,
    history w' = history w ++ events
    ∧ (length (encoded events) ≤ 1)%nat
    ∧ (uploaded events = []
       ∨ ∃ cmd before after,
           events = before ++ EvEncode cmd :: after
           ∧ encoded before = [] ∧ uploaded before = []
           ∧ ffmpegEncode E (history w ++ before) cmd = None
           ∧ encoded after = []
           ∧ uploaded after = [(finalKey E, cmdOutput cmd)])
    ∧ (∀ result, r = Ok result →
         uploaded events = [(finalKey E, output result)])
    ∧ (removed events = []
       ∨ (removed events = [requestTempDir E]
          ∧ last events = Some (EvRm (requestTempDir E))
          ∧ uploaded events ≠ [])).
Proof.
  intros Hrun.
  destruct (processVideoRequest_trace E _ _ _ _ _ _ Hrun)
    as (pre & post & Hh & [Hpre _] & Hpost).
  destruct (prep_has_no_output pre Hpre) as (He & Hu & Hr).
  exists (pre ++ post). split; [done|].
  assert (∀ c rest, encoded rest = [] →
            uploaded rest = [(finalKey E, cmdOutput c)] →
            ffmpegEncode E (history w ++ pre) c = None →
            ∃ cmd before after,
              pre ++ EvEncode c :: rest = before ++ EvEncode cmd :: after
              ∧ encoded before = [] ∧ uploaded before = []
              ∧ ffmpegEncode E (history w ++ before) cmd = None
              ∧ encoded after = []
              ∧ uploaded after = [(finalKey E, cmdOutput cmd)]) as Hshape.
  { intros c rest ? ? ?. by exists c, pre, rest. }
  unfold encoded, uploaded, removed in *. rewrite !omap_app, He, Hu, Hr.
  destruct Hpost as [[-> [e ->]] | [(c & e & -> & -> & Hout & Henc)
                    | [(c & e & -> & -> & Hout & Henc & Hs3)
                    | (c & p & -> & -> & _ & Hout & Henc & Hs3)]]];
    cbn [omap list_omap app length].
  - split; [lia|]. split; [by left|]. split; [done|]. by left.
  - split; [lia|]. split; [by left|]. split; [done|]. by left.
  - split; [lia|]. split; [|split; [done|by left]].
    right. apply Hshape; [done| |done]. by rewrite Hout.
  - destruct (debugMode E); cbn [omap list_omap app length].
    + split; [lia|]. split; [|split; [|by left]].
      * right. apply Hshape; [done| |done]. by rewrite Hout.
      * by intros result [= <-].
    + split; [lia|]. split; [|split].
      * right. apply Hshape; [done| |done]. by rewrite Hout.
      * by intros result [= <-].
      * right. split; [done|]. split; [|done].
        change [EvEncode c; EvUpload (finalKey E) (finalOutput E);
                EvRm (requestTempDir E)]
          with ([EvEncode c; EvUpload (finalKey E) (finalOutput E)]
                ++ [EvRm (requestTempDir E)]).
        by rewrite app_assoc, last_snoc.
Qed.

Lemma upload_follows_successful_encode_witness :
  ∃ events,
    history (processVideoRequest quietEnv [sampleRecitation] pixabayBackground
               sampleAyat emptyWorld).2 = history emptyWorld ++ events
    ∧ (length (encoded events) ≤ 1)%nat
    ∧ (uploaded events = []
       ∨ ∃ cmd before after,
           events = before ++ EvEncode cmd :: after
           ∧ encoded before = [] ∧ uploaded before = []
           ∧ ffmpegEncode quietEnv (history emptyWorld ++ before) cmd = None
           ∧ encoded after = []
           ∧ uploaded after = [(finalKey quietEnv, cmdOutput cmd)])
    ∧ (∀ result,
         (processVideoRequest quietEnv [sampleRecitation] pixabayBackground
            sampleAyat emptyWorld).1 = Ok result →
         uploaded events = [(finalKey quietEnv, output result)])
    ∧ (removed events = []
       ∨ (removed events = [requestTempDir quietEnv]
          ∧ last events = Some (EvRm (requestTempDir quietEnv))
          ∧ uploaded events ≠ [])).
Proof.
  eapply (upload_follows_successful_encode quietEnv [sampleRecitation]
            pixabayBackground sampleAyat emptyWorld).
  apply surjective_pairing.
Defined.

(** ** Looking up what was uploaded *)

Section LookupFacts.

Context (E : Env).

Lemma getPresignedUrlForVideo_found id expiry w :
  id ≠ EmptyString →
  getPresignedUrlForVideo E (Some id) expiry w
  = (Ok (LookupFound id
           {| signedBase :=
                publicUrlOf E ("videos/" +:+ id +:+ "/final_output.mp4");
              signedExpires :=
                (dateNow E (history w)
                 + default 7200 expiry * 1000)%float |}
           (default 7200%float expiry) 200), w).
Proof.
  intros Hid. unfold getPresignedUrlForVideo, tryCatch, JsText.truthy.
  apply String.eqb_neq in Hid. by rewrite Hid.
Qed.

Lemma getPresignedUrlForVideo_missing videoId expiry w :
  JsText.truthy videoId = false →
  getPresignedUrlForVideo E videoId expiry w
  = (Ok (LookupFailed "Video ID is required" 400), w).
Proof.
  intros Hid. unfold getPresignedUrlForVideo, tryCatch. by rewrite Hid.
Qed.

Lemma getPresignedUrlForVideo_cases videoId expiry w :
  ∃ result,
    getPresignedUrlForVideo E videoId expiry w = (Ok result, w)
    ∧ (lookupStatus result = 200 ∨ lookupStatus result = 400).
Proof.
  destruct (JsText.truthy videoId) eqn:Hid.
  - destruct videoId as [id|]; [|done].
    assert (id ≠ EmptyString) as Hne.
    { intros ->. done. }
    rewrite (getPresignedUrlForVideo_found id expiry w Hne).
    eexists. split; [done|]. by left.
  - rewrite (getPresignedUrlForVideo_missing _ _ _ Hid).
    eexists. split; [done|]. by right.
Qed.

End LookupFacts.

(** X11.  What a request returns can be looked up afterwards: the video
    was uploaded under the key videos/<videoId>/final_output.mp4, the
    returned [videoUrl] is the object URL of that key and the returned
    presigned URL is that URL with the token and an expiry time; and
    [getPresignedUrlForVideo] on the returned [videoId] answers 200 with
    that same URL followed by the token and the expiry time
    [Date.now() + expirySeconds * 1000] (7200 seconds if none is given),
    computed in binary64 as the code does. *)
Theorem lookup_finds_uploaded_video (E : Env)
    (recitation_files : list RecitationFile) (background : Background)
    (ayat : list Ayah) (w : World) (result : VideoResult) (w' : World) :
  shortId E ≠ EmptyString →
  processVideoRequest E recitation_files background ayat w = (Ok result, w') →
  let key := "videos/" +:+ videoId result +:+ "/final_output.mp4" in
  (∃ events, history w' = history w ++ events
             ∧ uploaded events = [(key, output result)])
  ∧ videoUrl result = publicUrlOf E key
  ∧ signedBase (presignedUrl result) = videoUrl result
  ∧ ∀ expirySeconds w2,
      getPresignedUrlForVideo E (Some (videoId result)) expirySeconds w2
      = (Ok (LookupFound (videoId result)
               {| signedBase := videoUrl result;
                  signedExpires :=
                    (dateNow E (history w2)
                     + default 7200 expirySeconds * 1000)%float |}
               (default 7200%float expirySeconds) 200), w2).
Proof.
  intros Hid Hrun key.
  destruct (processVideoRequest_trace E _ _ _ _ _ _ Hrun)
    as (pre & post & Hh & [Hpre _] & Hpost).
  destruct Hpost as [[_ [e [=]]] | [(c & e & _ & [=] & _)
                    | [(c & e & _ & [=] & _)
                    | (c & p & -> & [= ->] & -> & Hout & _)]]].
  subst key. cbn [videoId output videoUrl presignedUrl].
  fold (finalKey E). split; [|split; [done|split; [done|]]].
  - exists (pre ++ [EvEncode c; EvUpload (finalKey E) (finalOutput E)]
            ++ (if debugMode E then [] else [EvRm (requestTempDir E)])).
    split; [done|].
    destruct (prep_has_no_output pre Hpre) as (_ & Hu & _).
    unfold uploaded in *. rewrite omap_app, Hu.
    by destruct (debugMode E).
  - intros expirySeconds w2.
    by rewrite (getPresignedUrlForVideo_found E (shortId E) expirySeconds w2 Hid).
Qed.

Lemma lookup_finds_uploaded_video_witness :
  ∃ result w',
    processVideoRequest quietEnv [sampleRecitation] pixabayBackground sampleAyat
      emptyWorld = (Ok result, w')
    ∧ videoUrl result
      = "https://acct.r2.cloudflarestorage.com/bucket/videos/1700000000000-42/final_output.mp4"
    ∧ videoUrl result
      = publicUrlOf quietEnv ("videos/" +:+ videoId result +:+ "/final_output.mp4").
Proof.
  eexists _, _. split; [reflexivity|]. split; [reflexivity|].
  eapply (lookup_finds_uploaded_video quietEnv [sampleRecitation]
            pixabayBackground sampleAyat emptyWorld); [discriminate|reflexivity].
Defined.

(** ** The entry points *)

Section EntryFacts.

Context (E : Env).

Lemma handleProcess_run recitation_files background ayat w :
  handleProcess E
    (PayloadFields (Some recitation_files) (Some background) (Some ayat)) w
  = (Ok match (processVideoRequest E recitation_files background ayat w).1 with
        | Ok result => {| resStatus := 200; resBody := BodyVideo result |}
        | Throw e => {| resStatus := 500; resBody := BodyError e |}
        end,
     (processVideoRequest E recitation_files background ayat w).2).
Proof.
  unfold handleProcess, tryCatch. rewrite run_bind.
  by destruct (processVideoRequest E recitation_files background ayat w)
    as [[v|e] w'].
Qed.

Lemma handleProcess_missing recitation_files background ayat w :
  recitation_files = None ∨ background = None ∨ ayat = None →
  handleProcess E (PayloadFields recitation_files background ayat) w
  = (Ok {| resStatus := 400; resBody := BodyError missingFields |}, w).
Proof.
  intros H. unfold handleProcess, tryCatch.
  destruct recitation_files, background, ayat; try done.
  by destruct H as [?|[?|?]].
Qed.

Lemma handler_process body w :
  handler E {| reqMethod := "POST"; reqUrl := UrlParsed (Some "/process"); reqBody := body |} w
  = handleProcess E body w.
Proof.
  unfold handler, tryCatch. cbn [reqMethod reqUrl reqBody pathnameIs].
  change (String.eqb "POST" "OPTIONS") with false.
  change (String.eqb "POST" "GET") with false.
  change (String.eqb "POST" "POST") with true.
  change (String.eqb "/process" "/process") with true.
  cbv beta iota zeta. cbn [andb].
  assert (∃ resp w', handleProcess E body w = (Ok resp, w')) as (resp & w' & ->);
    [|done].
  destruct body as [message|[rf|] [bg|] [ay|]];
    try (by eexists _, _; apply handleProcess_missing; auto).
  - by eexists _, _.
  - eexists _, _. apply handleProcess_run.
Qed.

Lemma runpodHandler_process input recitation_files background ayat w :
  inRoute input ≠ Some "video" →
  inRecitationFiles input = Some recitation_files →
  inBackground input = Some background →
  inAyat input = Some ayat →
  runpodHandler E input w
  = (Ok match (processVideoRequest E recitation_files background ayat w).1 with
        | Ok result => RunVideo result
        | Throw e => RunError e
        end,
     (processVideoRequest E recitation_files background ayat w).2).
Proof.
  intros Hroute Hrf Hbg Hay. unfold runpodHandler.
  rewrite bool_decide_eq_false_2, Hrf, Hbg, Hay by done.
  unfold tryCatch. rewrite run_bind.
  by destruct (processVideoRequest E recitation_files background ayat w)
    as [[v|e] w'].
Qed.

Lemma runpodHandler_returns input w :
  ∃ out w', runpodHandler E input w = (Ok out, w').
Proof.
  unfold runpodHandler. case_bool_decide as Hroute.
  - rewrite run_bind.
    destruct (getPresignedUrlForVideo_cases E (inVideoId input)
                (inExpirySeconds input) w) as (result & -> & _).
    by eexists _, _.
  - destruct (inRecitationFiles input) as [rf|] eqn:Hrf; [|by eexists _, _].
    destruct (inBackground input) as [bg|] eqn:Hbg; [|by eexists _, _].
    destruct (inAyat input) as [ay|] eqn:Hay; [|by eexists _, _].
    unfold tryCatch. rewrite run_bind.
    destruct (processVideoRequest E rf bg ay w) as [[v|e] w']; by eexists _, _.
Qed.

End EntryFacts.

(** X12.  The HTTP route POST /process and the RunPod handler treat a
    payload alike.  With all three fields present both run the same
    request and leave the same world; when it returns, one answers 200
    with the result and the other returns the result; when it fails, one
    answers 500 with the error message and the other returns normally
    with that message in [error].  With a field missing one answers 400
    and the other returns the same message, and neither has touched
    anything: no directory, no download. *)
Theorem entry_points_agree (E : Env) (w : World) :
  (∀ recitation_files background ayat input,
     inRoute input ≠ Some "video" →
     inRecitationFiles input = Some recitation_files →
     inBackground input = Some background →
     inAyat input = Some ayat →
     let r := processVideoRequest E recitation_files background ayat w in
     handler E {| reqMethod := "POST"; reqUrl := UrlParsed (Some "/process");
                  reqBody := PayloadFields (Some recitation_files)
                               (Some background) (Some ayat) |} w
     = (Ok match r.1 with
           | Ok result => {| resStatus := 200; resBody := BodyVideo result |}
           | Throw e => {| resStatus := 500; resBody := BodyError e |}
           end, r.2)
     ∧ runpodHandler E input w
       = (Ok match r.1 with
             | Ok result => RunVideo result
             | Throw e => RunError e
             end, r.2))
  ∧ (∀ recitation_files background ayat input,
       inRoute input ≠ Some "video" →
       inRecitationFiles input = recitation_files →
       inBackground input = background →
       inAyat input = ayat →
       recitation_files = None ∨ background = None ∨ ayat = None →
       handler E {| reqMethod := "POST"; reqUrl := UrlParsed (Some "/process");
                    reqBody := PayloadFields recitation_files background ayat |} w
       = (Ok {| resStatus := 400; resBody := BodyError missingFields |}, w)
       ∧ runpodHandler E input w = (Ok (RunError missingFields), w)).
Proof.
  split.
  - intros recitation_files background ayat input Hroute Hrf Hbg Hay r.
    split; [by rewrite handler_process, handleProcess_run|].
    by apply runpodHandler_process.
  - intros recitation_files background ayat input Hroute Hrf Hbg Hay Hmiss.
    split; [by rewrite handler_process, handleProcess_missing|].
    unfold runpodHandler. rewrite bool_decide_eq_false_2 by done.
    rewrite Hrf, Hbg, Hay.
    destruct recitation_files, background, ayat; try done.
    by destruct Hmiss as [?|[?|?]].
Qed.

Lemma entry_points_agree_witness :
  handler quietEnv {| reqMethod := "POST"; reqUrl := UrlParsed (Some "/process");
                      reqBody := PayloadFields (Some []) (Some strayBackground)
                                   (Some []) |} emptyWorld
  = (Ok {| resStatus := 500;
           resBody := BodyError "No valid background video provided" |},
     (processVideoRequest quietEnv [] strayBackground [] emptyWorld).2)
  ∧ runpodHandler quietEnv
      {| inRoute := None; inVideoId := None; inExpirySeconds := None;
         inRecitationFiles := Some []; inBackground := Some strayBackground;
         inAyat := Some [] |} emptyWorld
    = (Ok (RunError "No valid background video provided"),
       (processVideoRequest quietEnv [] strayBackground [] emptyWorld).2).
Proof.
  destruct (entry_points_agree quietEnv emptyWorld) as [H _].
  apply (H [] strayBackground []
           {| inRoute := None; inVideoId := None; inExpirySeconds := None;
              inRecitationFiles := Some []; inBackground := Some strayBackground;
              inAyat := Some [] |}); [discriminate|reflexivity..].
Defined.

Section RouteFacts.

Context (E : Env).

Lemma includes_cons sep c rest :
  JsText.includes (String c rest) (String sep EmptyString) = false →
  Ascii.eqb c sep = false
  ∧ JsText.includes rest (String sep EmptyString) = false.
Proof.
  cbn [JsText.includes Js.startsWith]. intros [H1 H2]%orb_false_iff.
  split; [|done]. rewrite Ascii.eqb_sym.
  destruct (Ascii.eqb sep c); [|done]. by destruct rest.
Qed.

Lemma split_single sep a :
  JsText.includes a (String sep EmptyString) = false →
  JsText.split sep a = [a].
Proof.
  induction a as [|c a IH]; [done|].
  intros [Hc Ha]%includes_cons. cbn [JsText.split].
  by rewrite Hc, (IH Ha).
Qed.

Lemma split_segment sep a b :
  JsText.includes a (String sep EmptyString) = false →
  JsText.split sep (a +:+ String sep b) = a :: JsText.split sep b.
Proof.
  induction a as [|c a IH].
  - intros _. rewrite StringFacts.app_nil_l. cbn [JsText.split].
    by rewrite Ascii.eqb_refl.
  - intros [Hc Ha]%includes_cons.
    rewrite StringFacts.app_cons. cbn [JsText.split].
    by rewrite Hc, (IH Ha).
Qed.

Lemma videos_third_segment id tail :
  JsText.includes id "/" = false →
  tail = EmptyString ∨ Js.startsWith tail "/" = true →
  JsText.split "/" ("/videos/" +:+ id +:+ tail) !! 2%nat = Some id.
Proof.
  intros Hid Htail.
  change ("/videos/" +:+ id +:+ tail)
    with (String "/" ("videos" +:+ String "/" (id +:+ tail))).
  cbn [JsText.split]. rewrite Ascii.eqb_refl, split_segment by done.
  destruct Htail as [->|Htail].
  - by rewrite StringFacts.app_nil_r, split_single.
  - destruct tail as [|c tail]; [done|]. cbn [Js.startsWith] in Htail.
    apply andb_true_iff in Htail as [Hc%Ascii.eqb_eq _]. subst c.
    by rewrite split_segment.
Qed.

Lemma handler_videos pathname body w :
  Js.startsWith pathname "/videos/" = true →
  handler E {| reqMethod := "GET"; reqUrl := UrlParsed (Some pathname);
               reqBody := body |} w
  = (match (getPresignedUrlForVideo E (JsText.split "/" pathname !! 2%nat)
              None w).1 with
     | Ok result => Ok {| resStatus := lookupStatus result;
                          resBody := BodyLookup result |}
     | Throw _ => Ok {| resStatus := 500;
                        resBody := BodyError "Internal Server Error" |}
     end,
     (getPresignedUrlForVideo E (JsText.split "/" pathname !! 2%nat)
        None w).2).
Proof.
  intros Hp. unfold handler, tryCatch. cbn [reqMethod reqUrl reqBody pathnameIs].
  change (String.eqb "GET" "OPTIONS") with false.
  change (String.eqb "GET" "GET") with true.
  cbv beta iota zeta. cbn [andb].
  assert (String.eqb pathname "/" || String.eqb pathname "" = false) as ->.
  { destruct pathname as [|c [|d p]]; [done| |].
    - cbn [Js.startsWith] in Hp. by rewrite andb_false_r in Hp.
    - cbn [String.eqb]. by destruct (Ascii.eqb c "/"). }
  rewrite Hp, run_bind.
  by destruct (getPresignedUrlForVideo E _ None w) as [[result|e] w'].
Qed.

End RouteFacts.

(** X13.  GET /videos/<id> looks up the third path segment and nothing
    else: for a request whose URL parses to the pathname /videos/<id>, or
    to that followed by a slash and anything, with an [id] without a
    slash, the answer is 200 with the presigned URL for the key
    videos/<id>/final_output.mp4, valid 7200 seconds, when [id] is not
    empty, and 400 "Video ID is required" when it is; the lookup leaves
    the world as it was. *)
Theorem video_route_reads_third_segment (E : Env) (id tail : string)
    (body : Payload) (w : World) :
  JsText.includes id "/" = false →
  tail = EmptyString ∨ Js.startsWith tail "/" = true →
  handler E {| reqMethod := "GET";
               reqUrl := UrlParsed (Some ("/videos/" +:+ id +:+ tail));
               reqBody := body |} w
  = (Ok (if String.eqb id ""
         then {| resStatus := 400;
                 resBody := BodyLookup (LookupFailed "Video ID is required" 400) |}
         else {| resStatus := 200;
                 resBody :=
                   BodyLookup
                     (LookupFound id
                        {| signedBase :=
                             publicUrlOf E
                               ("videos/" +:+ id +:+ "/final_output.mp4");
                           signedExpires :=
                             (dateNow E (history w) + 7200 * 1000)%float |}
                        7200%float 200) |}), w).
Proof.
  intros Hid Htail.
  rewrite handler_videos by apply startsWith_app.
  rewrite (videos_third_segment id tail Hid Htail).
  destruct (String.eqb_spec id "") as [->|Hne].
  - by rewrite getPresignedUrlForVideo_missing.
  - by rewrite (getPresignedUrlForVideo_found E id None w Hne).
Qed.

Lemma video_route_reads_third_segment_witness :
  handler quietEnv
    {| reqMethod := "GET";
       reqUrl := UrlParsed (Some ("/videos/" +:+ "abc" +:+ "/extra/parts"));
       reqBody := PayloadInvalid "" |} emptyWorld
  = (Ok {| resStatus := 200;
           resBody :=
             BodyLookup
               (LookupFound "abc"
                  {| signedBase :=
                       "https://acct.r2.cloudflarestorage.com/bucket/videos/abc/final_output.mp4";
                     signedExpires := 1700007200000%float |}
                  7200%float 200) |}, emptyWorld).
Proof.
  apply (video_route_reads_third_segment quietEnv "abc" "/extra/parts");
    [reflexivity | right; reflexivity].
Defined.

Ltac status_in := cbn; repeat first [apply list_elem_of_here | apply list_elem_of_further].

Section HandlerFacts.

Context (E : Env).

Lemma handleProcess_answers body w :
  ∃ response w',
    handleProcess E body w = (Ok response, w')
    ∧ resStatus response ∈ [200; 400; 500].
Proof.
  destruct body as [message|[rf|] [bg|] [ay|]];
    try (rewrite handleProcess_missing by auto; eexists _, _;
         split; [reflexivity|status_in]).
  - eexists _, _. split; [reflexivity|status_in].
  - rewrite handleProcess_run.
    destruct (processVideoRequest E rf bg ay w) as [[v|e] w'];
      eexists _, _; (split; [reflexivity|status_in]).
Qed.

(** Every request other than POST /process. *)
Lemma handler_elsewhere method url body w :
  ¬ (method = "POST" ∧ url = UrlParsed (Some "/process")) →
  ∃ response,
    handler E {| reqMethod := method; reqUrl := url; reqBody := body |} w
    = (Ok response, w)
    ∧ resStatus response ∈ [200; 204; 400; 404; 500]
    ∧ (resStatus response = 500 ↔
       (∃ message, url = UrlThrows message)
       ∨ (method = "GET" ∧ url = UrlParsed None))
    ∧ (method = "OPTIONS" → ∀ pathname, url = UrlParsed pathname →
       resStatus response = 204).
Proof.
  intros Hroute. unfold handler, tryCatch.
  cbn [reqMethod reqUrl reqBody].
  destruct url as [message|pathname].
  { eexists. split; [reflexivity|]. split; [status_in|].
    split; [|done]. split; [by eauto|done]. }
  assert (String.eqb method "POST" && pathnameIs pathname "/process" = false)
    as Hpost.
  { apply andb_false_iff.
    destruct (String.eqb_spec method "POST") as [->|Hm]; [right|by left].
    destruct pathname as [p|]; [|done]. cbn [pathnameIs].
    apply String.eqb_neq. intros ->. by apply Hroute. }
  cbv zeta. rewrite Hpost.
  destruct (String.eqb_spec method "OPTIONS") as [->|Ho].
  { eexists. split; [reflexivity|]. split; [status_in|].
    split; [|done]. split; [done|]. by intros [[? [=]]|[[=] _]]. }
  destruct (String.eqb_spec method "GET") as [->|Hget]; cbn [andb].
  - destruct (pathnameIs pathname "/" || pathnameIs pathname "") eqn:Hroot.
    { eexists. split; [reflexivity|]. split; [status_in|].
      split; [|done]. split; [done|].
      intros [[? [=]]|[_ [= ->]]]. done. }
    destruct pathname as [p|].
    + destruct (Js.startsWith p "/videos/").
      * rewrite run_bind.
        destruct (getPresignedUrlForVideo_cases E
                    (JsText.split "/" p !! 2%nat) None w)
          as (result & -> & Hs).
        eexists. split; [reflexivity|]. cbn [resStatus].
        split; [destruct Hs as [-> | ->]; status_in|].
        split; [|done]. split.
        -- intros H5. destruct Hs as [Hs|Hs]; rewrite Hs in H5; done.
        -- by intros [[? [=]]|[_ [=]]].
      * eexists. split; [reflexivity|]. split; [status_in|].
        split; [|done]. split; [done|]. by intros [[? [=]]|[_ [=]]].
    + eexists. split; [reflexivity|]. split; [status_in|].
      split; [|done]. split; [by right|done].
  - eexists. split; [reflexivity|]. split; [status_in|].
    split; [|done]. split; [done|]. by intros [[? [=]]|[? _]].
Qed.

End HandlerFacts.

(** X14.  [handler] always answers, with status 200, 204, 400, 404 or 500,
    and only POST /process can have any effect: every other request
    leaves the world as it was.  Outside POST /process the answer is 500
    exactly when [url.parse] throws on the request's URL or when a GET
    request has a [null] pathname; an OPTIONS request whose URL parses is
    answered 204. *)
Theorem only_process_route_has_effects (E : Env) (req : HttpRequest) (w : World) :
  ∃ response w',
    handler E req w = (Ok response, w')
    ∧ resStatus response ∈ [200; 204; 400; 404; 500]
    ∧ (¬ (reqMethod req = "POST" ∧ reqUrl req = UrlParsed (Some "/process")) →
       w' = w
       ∧ (resStatus response = 500 ↔
          (∃ message, reqUrl req = UrlThrows message)
          ∨ (reqMethod req = "GET" ∧ reqUrl req = UrlParsed None))
       ∧ (reqMethod req = "OPTIONS" →
          ∀ pathname, reqUrl req = UrlParsed pathname →
          resStatus response = 204)).
Proof.
  destruct req as [method url body]. cbn [reqMethod reqUrl].
  assert (method = "POST" ∧ url = UrlParsed (Some "/process")
          ∨ ¬ (method = "POST" ∧ url = UrlParsed (Some "/process")))
    as [[-> ->]|Hn].
  { destruct (String.eqb_spec method "POST") as [->|Hm];
      [|right; by intros [? _]].
    destruct url as [m|[p|]]; try (right; by intros [_ [=]]).
    destruct (String.eqb_spec p "/process") as [->|Hp]; [by left|].
    right. intros [_ [= ->]]. done. }
  - rewrite handler_process.
    destruct (handleProcess_answers E body w) as (response & w' & -> & Hs).
    exists response, w'. split; [done|]. split.
    + apply elem_of_cons in Hs as [->|Hs]; [status_in|].
      apply elem_of_cons in Hs as [->|Hs]; [status_in|].
      apply list_elem_of_singleton in Hs as ->. status_in.
    + intros Hne. by destruct Hne.
  - destruct (handler_elsewhere E method url body w Hn)
      as (response & -> & Hs & H5 & Ho).
    exists response, w. by split; [|split].
Qed.

Lemma only_process_route_has_effects_witness :
  ∃ response,
    handler quietEnv
      {| reqMethod := "DELETE"; reqUrl := UrlParsed (Some "/process");
         reqBody := PayloadFields (Some []) (Some strayBackground) (Some []) |}
      emptyWorld
    = (Ok response, emptyWorld)
    ∧ resStatus response ≠ 500.
Proof.
  destruct (only_process_route_has_effects quietEnv
              {| reqMethod := "DELETE"; reqUrl := UrlParsed (Some "/process");
                 reqBody := PayloadFields (Some []) (Some strayBackground)
                              (Some []) |} emptyWorld)
    as (response & w' & Hrun & _ & Heff).
  assert (¬ ("DELETE" = "POST" ∧ UrlParsed (Some "/process")
                                 = UrlParsed (Some "/process"))) as Hm
    by (by intros [? _]).
  destruct (Heff Hm) as (Hw & H5 & _).
  exists response. rewrite Hw in Hrun. split; [exact Hrun|].
  intros Hs. apply H5 in Hs as [[? [=]]|[[=] _]].
Defined.

Section JobFacts.

Context (E : Env).

Lemma writeJobOutput_run jobId w :
  ∃ w',
    writeJobOutput jobId w = (Ok true, w')
    ∧ (OUTPUT_DIR +:+ "/" +:+ showId jobId) ∈ dirs w'
    ∧ dirs w ⊆ dirs w'
    ∧ ∃ events,
        history w' = history w ++ events
        ∧ last events
          = Some (EvWriteFile (OUTPUT_DIR +:+ "/" +:+ showId jobId
                               +:+ "/output.json"))
        ∧ ∀ e, e ∈ events →
               e = EvMkdir (OUTPUT_DIR +:+ "/" +:+ showId jobId)
               ∨ e = EvWriteFile (OUTPUT_DIR +:+ "/" +:+ showId jobId
                                  +:+ "/output.json").
Proof.
  unfold writeJobOutput, tryCatch, existsSync, mkdirSync. run.
  case_bool_decide as Hin; simpl.
  - eexists. split; [reflexivity|]. simpl. split; [done|]. split; [done|].
    eexists [_]. split; [reflexivity|]. split; [reflexivity|].
    intros e ->%list_elem_of_singleton. by right.
  - eexists. split; [reflexivity|]. simpl.
    split; [apply elem_of_union_l; by apply elem_of_singleton|].
    split; [apply union_subseteq_r|].
    eexists [_; _]. split; [by rewrite <- app_assoc|]. split; [reflexivity|].
    intros e [->|He]%elem_of_cons; [by left|].
    apply list_elem_of_singleton in He as ->. by right.
Qed.

Lemma jobServer_run url body w :
  Js.startsWith url "/run" = true →
  jobServer E {| jobMethod := "POST"; jobUrl := url; jobBody := body |} w
  = handleRun E body w.
Proof.
  intros Hurl. unfold jobServer, tryCatch. cbn [jobMethod jobUrl jobBody].
  rewrite Hurl.
  change (String.eqb "POST" "OPTIONS") with false.
  change (String.eqb "POST" "GET") with false.
  change (String.eqb "POST" "POST") with true.
  rewrite andb_false_r. cbn [andb].
  assert (∃ response w', handleRun E body w = (Ok response, w'))
    as (response & w' & ->); [|done].
  unfold handleRun, tryCatch.
  destruct body as [message|id [input|]]; [by eexists _, _| |by eexists _, _].
  rewrite run_bind. cbn [runJob].
  destruct (runpodHandler_returns E input w) as (out & w1 & ->).
  rewrite run_bind.
  destruct (writeJobOutput_run id w1) as (w2 & -> & _).
  by eexists _, _.
Qed.

End JobFacts.

(** X15.  The job server answers every POST to a URL starting with /run
    whose body has an [input] with status 200 and the handler's output,
    also when the processing failed, and then records the job: after what
    the handler did it creates /outputs/<id> if needed and writes
    /outputs/<id>/output.json last.  A job without [input], or a body that
    does not parse, is answered with 500 and nothing is written. *)
Theorem job_answered_then_recorded (E : Env) (url : string)
    (id : option string) (input : RunpodInput) (message : string) (w : World) :
  Js.startsWith url "/run" = true →
  (∃ out w1 w2 events,
     runpodHandler E input w = (Ok out, w1)
     ∧ jobServer E {| jobMethod := "POST"; jobUrl := url;
                      jobBody := Job id (Some input) |} w
       = (Ok {| jobStatus := 200; jobResult := JobDone id out |}, w2)
     ∧ history w2 = history w1 ++ events
     ∧ last events
       = Some (EvWriteFile ("/outputs/" +:+ showId id +:+ "/output.json"))
     ∧ (∀ e, e ∈ events →
             e = EvMkdir ("/outputs/" +:+ showId id)
             ∨ e = EvWriteFile ("/outputs/" +:+ showId id +:+ "/output.json"))
     ∧ ("/outputs/" +:+ showId id) ∈ dirs w2)
  ∧ (∃ error,
       jobServer E {| jobMethod := "POST"; jobUrl := url;
                      jobBody := Job id None |} w
       = (Ok {| jobStatus := 500; jobResult := JobFailed error |}, w))
  ∧ jobServer E {| jobMethod := "POST"; jobUrl := url;
                   jobBody := JobInvalid message |} w
    = (Ok {| jobStatus := 500; jobResult := JobFailed message |}, w).
Proof.
  intros Hurl. rewrite !jobServer_run by done.
  split; [|split; [by eexists|done]].
  unfold handleRun, tryCatch. rewrite run_bind. cbn [runJob].
  destruct (runpodHandler_returns E input w) as (out & w1 & ->).
  rewrite run_bind.
  destruct (writeJobOutput_run id w1)
    as (w2 & -> & Hdir & _ & events & Hh & Hlast & Hev).
  exists out, w1, w2, events. done.
Qed.

Lemma job_answered_then_recorded_witness :
  ∃ w2,
    jobServer quietEnv
      {| jobMethod := "POST"; jobUrl := "/runsync";
         jobBody := Job (Some "job-1")
                      (Some {| inRoute := None; inVideoId := None;
                               inExpirySeconds := None;
                               inRecitationFiles := None;
                               inBackground := None; inAyat := None |}) |}
      emptyWorld
    = (Ok {| jobStatus := 200;
             jobResult := JobDone (Some "job-1") (RunError missingFields) |}, w2)
    ∧ history w2 = [EvMkdir "/outputs/job-1";
                    EvWriteFile "/outputs/job-1/output.json"].
Proof.
  destruct (job_answered_then_recorded quietEnv "/runsync" (Some "job-1")
              {| inRoute := None; inVideoId := None; inExpirySeconds := None;
                 inRecitationFiles := None; inBackground := None;
                 inAyat := None |} "" emptyWorld eq_refl)
    as [(out & w1 & w2 & events & Hout & Hrun & _) _].
  injection Hout as <- <-.
  exists w2. split; [exact Hrun|].
  change (jobServer quietEnv _ emptyWorld)
    with (Ok {| jobStatus := 200;
                jobResult := JobDone (Some "job-1") (RunError missingFields) |},
          {| dirs := {["/outputs/job-1"]} ∪ ∅;
             history := [EvMkdir "/outputs/job-1";
                         EvWriteFile "/outputs/job-1/output.json"] |}) in Hrun.
  by injection Hrun as <-.
Defined.

(** ** What a request hands to the encoder *)

Section RequestCommand.

Context (E : Env).








End RequestCommand.




(** ** Zero verses *)




